(** * Scene serialization of bevy_serialization (crates/bevy_serialization/src/scene.rs)

    A shallow embedding of [ComponentRegistry], [SerializableScene] and the
    serde [Serialize] implementations of [SerializableScene], [WorldEntity],
    [EntityComponents] and [EntityComponent].

    The serde [Serializer] is modelled as a deterministic sink: a state [Σ]
    and a step function that consumes one serializer call ([event]) and
    either yields the next state or an error [Err].  A pass runs in a
    store-passing monad whose store holds the scene, the registry and the
    sink state; its outcome is a result, a sink error (propagated with [?])
    or a panic at one of the [unwrap] sites of the source. *)

From Stdlib Require Import String FunctionalExtensionality.
From stdpp Require Import base list gmap.

#[local] Set Warnings "-register-all".

(** ** Storage (legion) *)

(** Modelled from the spec: the legion storage engine is not part of
    src/.  The spec's Scene boundary: a world enumerates its archetypes;
    an archetype has an ordered list of (type id, layout metadata) and a
    list of chunksets; a chunkset holds chunks; a chunk holds its live
    entities, in slot order, and one column per component type, found by
    type id.  Columns are lists of component values. *)
Abbreviation ComponentTypeId := nat (only parsing).
Abbreviation ComponentMeta := nat (only parsing).
Abbreviation Value := nat (only parsing).
Abbreviation ComponentResourceSet := (list nat) (only parsing).

Record Entity := mk_entity { entity_index : nat; entity_generation : nat }.

(** [Entity::index]: only the index part of the identity. *)
Definition Entity_index (e : Entity) : nat := entity_index e.

Record ComponentStorage := mk_storage {
  cs_entities : list Entity;
  cs_components : list (ComponentTypeId * ComponentResourceSet)
}.

(** [ComponentStorage::components(type_id)]: the first column stored
    under [type_id], if any. *)
Fixpoint find_column (cols : list (ComponentTypeId * ComponentResourceSet))
    (type_id : ComponentTypeId) : option ComponentResourceSet :=
  match cols with
  | [] => None
  | (t, col) :: rest => if Nat.eq_dec t type_id then Some col else find_column rest type_id
  end.

Definition components (c : ComponentStorage) (type_id : ComponentTypeId)
    : option ComponentResourceSet :=
  find_column (cs_components c) type_id.

Definition chunk_is_empty (c : ComponentStorage) : bool :=
  match cs_entities c with [] => true | _ => false end.

Record Chunkset := mk_chunkset { chunks : list ComponentStorage }.

(** [Chunkset::occupied]: the chunks up to the last non-empty one
    (trailing empty chunks are cut off). *)
Fixpoint drop_empty (l : list ComponentStorage) : list ComponentStorage :=
  match l with
  | [] => []
  | c :: l' => if chunk_is_empty c then drop_empty l' else l
  end.

Definition occupied (cs : Chunkset) : list ComponentStorage :=
  rev (drop_empty (rev (chunks cs))).

Record ArchetypeData := mk_archetype {
  description_components : list (ComponentTypeId * ComponentMeta);
  chunksets : list Chunkset
}.

Record World := mk_world { archetypes : list ArchetypeData }.

(** Modelled from the spec: [World::iter_entities], the live entities of
    the world: every entity of every chunk of every archetype. *)
Definition iter_entities (w : World) : list Entity :=
  flat_map (fun a => flat_map (fun cs => flat_map cs_entities (chunks cs))
                              (chunksets a))
           (archetypes w).

(** [pub struct Scene { pub world: World }] *)
Record Scene := mk_scene { world : World }.

(** ** Registry *)

(** [ComponentRegistration]: its type id and the type-erased
    [individual_comp_serialize_fn].  The function receives a column, a
    slot index and a callback; it is modelled by the values it hands to
    the callback, in order (one per call). *)
Record ComponentRegistration := mk_registration {
  ty : ComponentTypeId;
  individual_comp_serialize_fn : ComponentResourceSet -> nat -> list Value
}.

(** [pub registrations: HashMap<ComponentTypeId, ComponentRegistration>] *)
Abbreviation ComponentRegistry := (gmap nat ComponentRegistration) (only parsing).

(** [ComponentRegistry::register::<T>]; [registration] is
    [ComponentRegistration::of::<T>()]. *)
Definition register (self : gmap nat ComponentRegistration)
    (registration : ComponentRegistration) : gmap nat ComponentRegistration :=
  <[ty registration := registration]> self.

(** [ComponentRegistry::get] *)
Definition get (self : gmap nat ComponentRegistration) (type_id : ComponentTypeId)
    : option ComponentRegistration :=
  self !! type_id.

(** [pub struct SerializableScene<'a>]: the borrowed scene and registry;
    [SerializableScene::new] is its constructor. *)
Record SerializableScene := SerializableScene_new {
  scene : Scene;
  component_registry : gmap nat ComponentRegistration
}.

(** ** The output sink *)

(** The serde [Serializer] calls made by the pass. *)
Inductive event :=
  | SerializeSeq (len : option nat)
  | SerializeElement
  | SeqEnd
  | SerializeStruct (name : string) (len : nat)
  | SerializeField (key : string)
  | StructEnd
  | SerializeU32 (n : nat)
  | SerializeComponent (v : Value).

(** The four [unwrap] sites of scene.rs that can panic. *)
Inductive panic_site :=
  | ColumnUnwrap         (* component_storage.components(..).unwrap() *)
  | RegistrationUnwrap   (* component_registry.get(..).unwrap() *)
  | TakeUnwrap           (* serializer.borrow_mut().take().unwrap() *)
  | ResultUnwrap.        (* result.unwrap() *)

Section Monad.
Context {Σ Err : Type}.

Record Store := mk_store {
  st_scene : Scene;
  st_registry : gmap nat ComponentRegistration;
  st_sink : Σ
}.

Inductive outcome (A : Type) :=
  | Ok (a : A) (st : Store)
  | Error (e : Err) (st : Store)
  | Panic (p : panic_site).

Definition M (A : Type) : Type := Store -> outcome A.

#[global] Instance M_ret : MRet M := fun A a st => Ok A a st.
#[global] Instance M_bind : MBind M := fun A B k m st =>
  match m st with
  | Ok _ a st' => k a st'
  | Error _ e st' => Error B e st'
  | Panic _ p => Panic B p
  end.

Definition panic {A} (p : panic_site) : M A := fun _ => Panic A p.

(** How a computation ends once its serializer calls are made: it returns,
    or it panics at an [unwrap] site. *)
Definition finish (fin : option panic_site) : M unit :=
  match fin with
  | None => mret tt
  | Some p => panic p
  end.

Fixpoint for_each {A} (l : list A) (body : A -> M unit) : M unit :=
  match l with
  | [] => mret tt
  | x :: l' => body x ;; for_each l' body
  end.

Variable step : Σ -> event -> Σ + Err.

(** One call on the serializer: [?] turns a sink error into the result. *)
Definition emit (ev : event) : M unit := fun st =>
  match step (st_sink st) ev with
  | inl s' => Ok _ tt (mk_store (st_scene st) (st_registry st) s')
  | inr e => Error _ e st
  end.

Definition emit_all (evs : list event) : M unit := for_each evs emit.

(** ** The pass *)

(** [SerializeSeq::serialize_element(&value)]. *)
Definition serialize_element (value : M unit) : M unit :=
  emit SerializeElement ;; value.

(** The callback handed to [individual_comp_serialize_fn]: it takes the
    serializer out of its [RefCell] (panicking when it is gone) and stores
    [Some(erased_serde::serialize(serialize, serializer))] in [result]. *)
Definition callback (serialize : Value) (serializer : option Store)
    : (option Store * outcome unit) + panic_site :=
  match serializer with
  | None => inr TakeUnwrap
  | Some s => inl (None, emit (SerializeComponent serialize) s)
  end.

Fixpoint run_callbacks (calls : list Value) (serializer : option Store)
    (result : option (outcome unit)) : option (outcome unit) + panic_site :=
  match calls with
  | [] => inl result
  | v :: rest =>
      match callback v serializer with
      | inr p => inr p
      | inl (serializer', r) => run_callbacks rest serializer' (Some r)
      end
  end.

(** [impl Serialize for EntityComponent] *)
Definition EntityComponent_serialize (index : nat)
    (component_resource_set : ComponentResourceSet)
    (component_registration : ComponentRegistration) : M unit := fun st =>
  match run_callbacks
          (individual_comp_serialize_fn component_registration
             component_resource_set index)
          (Some st) None with
  | inr p => Panic _ p
  | inl None => Panic _ ResultUnwrap
  | inl (Some r) => r
  end.

(** [impl Serialize for EntityComponents] *)
Definition EntityComponents_serialize (index : nat)
    (archetype_components : list (ComponentTypeId * ComponentMeta))
    (component_storage : ComponentStorage)
    (component_registry : gmap nat ComponentRegistration) : M unit :=
  emit (SerializeSeq (Some (length archetype_components))) ;;
  for_each archetype_components (fun '(component_type, _) =>
    match components component_storage component_type with
    | None => panic ColumnUnwrap
    | Some component_resource_set =>
        match get component_registry component_type with
        | None => panic RegistrationUnwrap
        | Some component_registration =>
            serialize_element
              (EntityComponent_serialize index component_resource_set
                 component_registration)
        end
    end) ;;
  emit SeqEnd.

(** [impl Serialize for WorldEntity] *)
Definition WorldEntity_serialize
    (archetype_components : list (ComponentTypeId * ComponentMeta))
    (component_registry : gmap nat ComponentRegistration)
    (component_storage : ComponentStorage) (entity : Entity) (index : nat)
    : M unit :=
  emit (SerializeStruct "Entity"%string 2) ;;
  emit (SerializeField "id"%string) ;; emit (SerializeU32 (Entity_index entity)) ;;
  emit (SerializeField "components"%string) ;;
  EntityComponents_serialize index archetype_components component_storage
    component_registry ;;
  emit StructEnd.

(** [.iter().enumerate()] *)
Fixpoint enumerate_from {A} (n : nat) (l : list A) : list (nat * A) :=
  match l with
  | [] => []
  | x :: l' => (n, x) :: enumerate_from (S n) l'
  end.

Definition enumerate {A} (l : list A) : list (nat * A) := enumerate_from 0 l.

(** [impl Serialize for SerializableScene] *)
Definition SerializableScene_serialize (self : SerializableScene) : M unit :=
  emit (SerializeSeq (Some (length (iter_entities (world (scene self)))))) ;;
  for_each (archetypes (world (scene self))) (fun archetype =>
    for_each (chunksets archetype) (fun chunkset =>
      for_each (occupied chunkset) (fun component_storage =>
        for_each (enumerate (cs_entities component_storage)) (fun '(index, entity) =>
          serialize_element
            (WorldEntity_serialize (description_components archetype)
               (component_registry self) component_storage entity index))))) ;;
  emit SeqEnd.

(** A pass: [SerializableScene::new(&scene, &registry).serialize(serializer)]
    on the scene and registry of the store. *)
Definition serialize_pass : M unit := fun st =>
  SerializableScene_serialize (SerializableScene_new (st_scene st) (st_registry st)) st.

End Monad.

Arguments Ok {Σ Err A}.
Arguments Error {Σ Err A}.
Arguments Panic {Σ Err A}.

(** ** The output, after the spec's words *)

(** The structured value a pass emits: a sequence of records
    [{ "id"%string: <integer>, "components"%string: [ <component-value>, ... ] }]. *)
Inductive sval :=
  | VSeq (len : option nat) (elems : list sval)
  | VStruct (name : string) (fields : list (string * sval))
  | VU32 (n : nat)
  | VComponent (v : Value).

(** The serializer calls that write a value. *)
Fixpoint encode (v : sval) : list event :=
  match v with
  | VSeq len elems =>
      SerializeSeq len ::
      (fix go (l : list sval) : list event :=
         match l with
         | [] => [SeqEnd]
         | e :: l' => SerializeElement :: encode e ++ go l'
         end) elems
  | VStruct name fields =>
      SerializeStruct name (length fields) ::
      (fix go (fs : list (string * sval)) : list event :=
         match fs with
         | [] => [StructEnd]
         | (k, e) :: fs' => SerializeField k :: encode e ++ go fs'
         end) fields
  | VU32 n => [SerializeU32 n]
  | VComponent v => [SerializeComponent v]
  end.

(** One occupied slot met by the traversal: the entity, the declared
    components of its archetype, its chunk and its slot. *)
Record entry := mk_entry {
  entry_entity : Entity;
  entry_components : list (ComponentTypeId * ComponentMeta);
  entry_storage : ComponentStorage;
  entry_slot : nat
}.

(** Traversal order of the spec: archetypes, then chunks in storage
    order, then occupied slots in slot order. *)
Definition chunk_entries (comps : list (ComponentTypeId * ComponentMeta))
    (c : ComponentStorage) : list entry :=
  map (fun '(slot, e) => mk_entry e comps c slot) (enumerate (cs_entities c)).

Definition archetype_entries (a : ArchetypeData) : list entry :=
  flat_map (fun cs => flat_map (chunk_entries (description_components a)) (chunks cs))
           (chunksets a).

Definition scene_entries (w : World) : list entry :=
  flat_map archetype_entries (archetypes w).

(** The values the registrations produce for the components of a slot,
    in the archetype's declared order. *)
Definition component_value (reg : gmap nat ComponentRegistration)
    (c : ComponentStorage) (slot : nat) (tm : ComponentTypeId * ComponentMeta)
    : list sval :=
  match components c (fst tm), reg !! fst tm with
  | Some col, Some r => map VComponent (individual_comp_serialize_fn r col slot)
  | _, _ => []
  end.

Definition component_values (reg : gmap nat ComponentRegistration)
    (c : ComponentStorage) (slot : nat)
    (comps : list (ComponentTypeId * ComponentMeta)) : list sval :=
  flat_map (component_value reg c slot) comps.

Definition entity_record (reg : gmap nat ComponentRegistration) (x : entry) : sval :=
  VStruct "Entity"%string
    [("id"%string, VU32 (Entity_index (entry_entity x)));
     ("components"%string,
      VSeq (Some (length (entry_components x)))
        (component_values reg (entry_storage x) (entry_slot x) (entry_components x)))].

Definition scene_output (sc : Scene) (reg : gmap nat ComponentRegistration) : sval :=
  VSeq (Some (length (iter_entities (world sc))))
       (map (entity_record reg) (scene_entries (world sc))).

(** ** Invariants of storage and registry *)

(** A chunk of an archetype of the world that holds at least one entity. *)
Definition live_chunk (w : World) (a : ArchetypeData) (c : ComponentStorage) : Prop :=
  In a (archetypes w) /\ (exists cs, In cs (chunksets a) /\ In c (chunks cs)) /\
  cs_entities c <> [].

(** Storage invariant: a chunk holds a column for every type its
    archetype declares. *)
Definition columns_complete (w : World) : Prop :=
  forall a c t m, live_chunk w a c -> In (t, m) (description_components a) ->
    is_Some (components c t).

(** The registry has an entry for every component type present. *)
Definition registry_covers (w : World) (reg : gmap nat ComponentRegistration) : Prop :=
  forall a c t m, live_chunk w a c -> In (t, m) (description_components a) ->
    is_Some (reg !! t).

(** Modelled from the spec: [ComponentRegistration::of::<T>] is not in
    src/; its [individual_comp_serialize_fn] "serializes exactly one
    component instance", i.e. calls the callback once. *)
Definition callbacks_once (reg : gmap nat ComponentRegistration) : Prop :=
  forall t r col slot, reg !! t = Some r ->
    length (individual_comp_serialize_fn r col slot) = 1.

Definition ComponentRegistration_of (t : ComponentTypeId)
    (value_at : ComponentResourceSet -> nat -> Value) : ComponentRegistration :=
  mk_registration t (fun col slot => [value_at col slot]).

(** ** Concrete sinks and scenes *)

(** A sink that records every call and never fails. *)
Definition record_step (s : list event) (ev : event) : list event + unit :=
  inl (s ++ [ev]).

(** A sink that fails on its first call. *)
Definition failing_step (s : list event) (ev : event) : list event + string :=
  inr "io error"%string.

Definition Position : ComponentTypeId := 0.
Definition Velocity : ComponentTypeId := 1.

Definition nth_value (col : ComponentResourceSet) (i : nat) : Value := nth i col 0.

Definition example_registry : gmap nat ComponentRegistration :=
  register (register ∅ (ComponentRegistration_of Position nth_value))
           (ComponentRegistration_of Velocity nth_value).

(** The spec's scenario: archetype A = {Position} with two entities,
    archetype B = {Position, Velocity} with one. *)
Definition chunk_A : ComponentStorage :=
  mk_storage [mk_entity 0 0; mk_entity 1 0] [(Position, [10; 11])].
Definition chunk_A_spare : ComponentStorage := mk_storage [] [(Position, [])].
Definition archetype_A : ArchetypeData :=
  mk_archetype [(Position, 8)] [mk_chunkset [chunk_A; chunk_A_spare]].

Definition chunk_B : ComponentStorage :=
  mk_storage [mk_entity 2 0] [(Velocity, [21]); (Position, [20])].
Definition chunkset_B : Chunkset := mk_chunkset [chunk_B].
Definition archetype_B : ArchetypeData :=
  mk_archetype [(Position, 8); (Velocity, 8)] [chunkset_B].

Definition example_world : World := mk_world [archetype_A; archetype_B].

Definition example_store : @Store (list event) :=
  mk_store (mk_scene example_world) example_registry [].

(** Only [Position] is registered. *)
Definition registry_without_velocity : gmap nat ComponentRegistration :=
  register ∅ (ComponentRegistration_of Position nth_value).

(** Archetype B's chunk stores its columns in the other order. *)
Definition example_world_reordered : World :=
  mk_world
    [archetype_A;
     mk_archetype [(Position, 8); (Velocity, 8)]
       [mk_chunkset [mk_storage [mk_entity 2 0] [(Position, [20]); (Velocity, [21])]]]].

(** Archetype B declares [Velocity] but its chunk has no such column. *)
Definition chunk_no_velocity : ComponentStorage :=
  mk_storage [mk_entity 2 0] [(Position, [20])].
Definition archetype_no_velocity_column : ArchetypeData :=
  mk_archetype [(Position, 8); (Velocity, 8)] [mk_chunkset [chunk_no_velocity]].
Definition world_missing_column : World := mk_world [archetype_no_velocity_column].

Definition store_without_velocity : @Store (list event) :=
  mk_store (mk_scene example_world) registry_without_velocity [].

Definition store_reordered : @Store (list event) :=
  mk_store (mk_scene example_world_reordered) example_registry [].

Definition store_missing_column : @Store (list event) :=
  mk_store (mk_scene world_missing_column) example_registry [].

Definition store_failing : @Store (list event) :=
  mk_store (mk_scene example_world) example_registry [].

(** [record_id v] is the [id] field of an entity record. *)
Definition record_id (v : sval) : option nat :=
  match v with
  | VStruct _ ((k, VU32 n) :: _) => if String.eqb k "id"%string then Some n else None
  | _ => None
  end.

(** ** Decidable check of the invariants, for concrete scenes *)

(** Modelled from the spec (as [callbacks_once]), restricted to the
    columns and slots the traversal meets. *)
Definition callbacks_once_in (w : World) (reg : gmap nat ComponentRegistration) : Prop :=
  forall a c t m col r slot, live_chunk w a c -> In (t, m) (description_components a) ->
    components c t = Some col -> reg !! t = Some r -> slot < length (cs_entities c) ->
    length (individual_comp_serialize_fn r col slot) = 1.

Definition chunk_wfb (reg : gmap nat ComponentRegistration)
    (comps : list (ComponentTypeId * ComponentMeta)) (c : ComponentStorage) : bool :=
  chunk_is_empty c ||
  forallb (fun '(t, _) =>
             match components c t, reg !! t with
             | Some col, Some r =>
                 forallb (fun slot => Nat.eqb (length (individual_comp_serialize_fn r col slot)) 1)
                         (seq 0 (length (cs_entities c)))
             | _, _ => false
             end) comps.

Definition scene_wfb (w : World) (reg : gmap nat ComponentRegistration) : bool :=
  forallb (fun a =>
    forallb (fun cs => forallb (chunk_wfb reg (description_components a)) (chunks cs))
            (chunksets a)) (archetypes w).

(** ** Registries and worlds the traversal cannot tell apart *)

(** [#[derive(Default)]] on [ComponentRegistry]: an empty [HashMap]. *)
Definition ComponentRegistry_default : gmap nat ComponentRegistration := ∅.

(** Two chunks of an archetype declaring [comps] that the traversal reads
    alike: their entities have the same indices, slot by slot, and they
    hold the same column for every declared type. *)
Definition chunk_same_reads (comps : list (ComponentTypeId * ComponentMeta))
    (c1 c2 : ComponentStorage) : Prop :=
  map Entity_index (cs_entities c1) = map Entity_index (cs_entities c2) /\
  forall t m, In (t, m) comps -> components c1 t = components c2 t.

Definition archetype_same_reads (a1 a2 : ArchetypeData) : Prop :=
  description_components a1 = description_components a2 /\
  Forall2 (fun cs1 cs2 =>
             Forall2 (chunk_same_reads (description_components a1)) (chunks cs1) (chunks cs2))
          (chunksets a1) (chunksets a2).

Definition world_same_reads (w1 w2 : World) : Prop :=
  Forall2 archetype_same_reads (archetypes w1) (archetypes w2).

(** Archetype B with other entity generations and an extra column of a
    type it does not declare. *)
Definition example_world_regenerated : World :=
  mk_world
    [archetype_A;
     mk_archetype [(Position, 8); (Velocity, 8)]
       [mk_chunkset [mk_storage [mk_entity 2 7] [(5, [99]); (Velocity, [21]); (Position, [20])]]]].

(** A world whose only chunk is empty, with an undeclared column. *)
Definition world_without_entities : World :=
  mk_world [mk_archetype [(Position, 8); (Velocity, 8)] [mk_chunkset [chunk_A_spare]]].

(** ** The calls a computation makes *)

(** [m] makes the serializer calls [evs] one by one (returning the sink's
    first error, if any) and then ends as [fin] says. *)
Definition runs {Σ Err : Type} (step : Σ -> event -> Σ + Err) (m : @M Σ Err unit)
    (evs : list event) (fin : option panic_site) : Prop :=
  m = (emit_all step evs ;; finish fin).

(** A computation, given for every sink, that makes the same calls and
    ends the same way whatever the sink: only the sink's errors can
    interrupt it. *)
Definition traced (m : forall Σ Err : Type, (Σ -> event -> Σ + Err) -> @M Σ Err unit)
    : Prop :=
  exists evs fin, forall Σ Err (step : Σ -> event -> Σ + Err), runs step (m Σ Err step) evs fin.

(** The calls of the spec's output that come before the component after
    [pre] of the slot [x], the slots [xs1] before it written whole; [n] is
    the sequence's length hint. *)
Definition output_prefix (n : nat) (reg : gmap nat ComponentRegistration) (xs1 : list entry)
    (x : entry) (pre : list (ComponentTypeId * ComponentMeta)) : list event :=
  SerializeSeq (Some n) ::
  flat_map (fun y => SerializeElement :: encode (entity_record reg y)) xs1 ++
  SerializeElement :: SerializeStruct "Entity"%string 2 :: SerializeField "id"%string ::
  SerializeU32 (Entity_index (entry_entity x)) :: SerializeField "components"%string ::
  SerializeSeq (Some (length (entry_components x))) ::
  flat_map (fun v => SerializeElement :: encode v)
    (component_values reg (entry_storage x) (entry_slot x) pre).

(** A sink that accepts [n] calls and fails on the next one, returning it. *)
Definition fail_after (n : nat) (ev : event) : nat + event :=
  match n with
  | 0 => inr ev
  | S r => inl r
  end.

(** The slot of archetype B in [world_missing_column]. *)
Definition missing_column_entry : entry :=
  mk_entry (mk_entity 2 0) [(Position, 8); (Velocity, 8)] chunk_no_velocity 0.

(** ** Laws of the pass monad *)

Section Laws.
Context {Σ Err : Type}.
Variable step : Σ -> event -> Σ + Err.

Lemma bind_ret_l {A B} (a : A) (k : A -> @M Σ Err B) : (mret a ≫= k) = k a.
Proof. extensionality st. reflexivity. Qed.

Lemma bind_ret_r (m : @M Σ Err unit) : (m ;; mret tt) = m.
Proof.
  extensionality st. unfold mbind, M_bind, mret, M_ret.
  destruct (m st) as [[] st'| |]; reflexivity.
Qed.

Lemma bind_assoc {A B C} (m : @M Σ Err A) (k : A -> M B) (h : B -> M C) :
  ((m ≫= k) ≫= h) = (m ≫= fun a => k a ≫= h).
Proof.
  extensionality st. unfold mbind, M_bind. destruct (m st); reflexivity.
Qed.

Lemma for_each_app {A} (l1 l2 : list A) (f : A -> @M Σ Err unit) :
  for_each (l1 ++ l2) f = (for_each l1 f ;; for_each l2 f).
Proof.
  induction l1 as [|x l1 IH]; simpl.
  - rewrite bind_ret_l. reflexivity.
  - rewrite IH, bind_assoc. reflexivity.
Qed.

Lemma for_each_ext {A} (l : list A) (f g : A -> @M Σ Err unit) :
  (forall x, In x l -> f x = g x) -> for_each l f = for_each l g.
Proof.
  induction l as [|x l IH]; intros H; simpl; [reflexivity|].
  rewrite (H x) by (left; reflexivity). rewrite IH by (intros y Hy; apply H; right; exact Hy).
  reflexivity.
Qed.

Lemma emit_all_app (l1 l2 : list event) :
  emit_all step (l1 ++ l2) = (emit_all step l1 ;; emit_all step l2).
Proof. apply for_each_app. Qed.

Lemma emit_all_cons (ev : event) (l : list event) :
  emit_all step (ev :: l) = (emit step ev ;; emit_all step l).
Proof. reflexivity. Qed.

Lemma emit_all_one (ev : event) : emit_all step [ev] = emit step ev.
Proof. rewrite emit_all_cons. apply bind_ret_r. Qed.

Lemma for_each_emit_all {A} (l : list A) (f : A -> @M Σ Err unit) (g : A -> list event) :
  (forall x, In x l -> f x = emit_all step (g x)) ->
  for_each l f = emit_all step (flat_map g l).
Proof.
  induction l as [|x l IH]; intros H; simpl; [reflexivity|].
  rewrite emit_all_app, (H x) by (left; reflexivity).
  rewrite IH by (intros y Hy; apply H; right; exact Hy). reflexivity.
Qed.

End Laws.

(** ** List facts *)

Lemma flat_map_of_map {A B C} (g : B -> list C) (h : A -> B) (l : list A) :
  flat_map g (map h l) = flat_map (fun x => g (h x)) l.
Proof. induction l as [|x l IH]; simpl; [reflexivity|]. rewrite IH. reflexivity. Qed.

Lemma flat_map_of_flat_map {A B C} (g : B -> list C) (h : A -> list B) (l : list A) :
  flat_map g (flat_map h l) = flat_map (fun x => flat_map g (h x)) l.
Proof.
  induction l as [|x l IH]; simpl; [reflexivity|]. rewrite flat_map_app, IH. reflexivity.
Qed.

Lemma enumerate_from_bounds {A} (n : nat) (l : list A) (i : nat) (x : A) :
  In (i, x) (enumerate_from n l) -> n <= i < n + length l.
Proof.
  revert n. induction l as [|y l IH]; intros n H; simpl in *; [contradiction|].
  destruct H as [H|H].
  - inversion H; subst. lia.
  - apply IH in H. lia.
Qed.

Lemma map_snd_enumerate_from {A} (n : nat) (l : list A) :
  map snd (enumerate_from n l) = l.
Proof. revert n. induction l as [|y l IH]; intros n; simpl; [reflexivity|]. rewrite IH. reflexivity. Qed.

Lemma encode_seq (len : option nat) (elems : list sval) :
  encode (VSeq len elems) =
  SerializeSeq len :: flat_map (fun e => SerializeElement :: encode e) elems ++ [SeqEnd].
Proof.
  cbn [encode]. f_equal.
  induction elems as [|e l IH]; [reflexivity|].
  rewrite IH. simpl. rewrite <- app_assoc. reflexivity.
Qed.

Lemma drop_empty_split (l : list ComponentStorage) :
  exists E, l = E ++ drop_empty l /\ Forall (fun c => chunk_is_empty c = true) E.
Proof.
  induction l as [|c l [E [HE HF]]]; simpl.
  - exists []. split; [reflexivity|constructor].
  - destruct (chunk_is_empty c) eqn:Hc.
    + exists (c :: E). split; [simpl; rewrite <- HE; reflexivity|constructor; assumption].
    + exists []. split; [reflexivity|constructor].
Qed.

Lemma chunk_is_empty_true (c : ComponentStorage) :
  chunk_is_empty c = true <-> cs_entities c = [].
Proof. unfold chunk_is_empty. destruct (cs_entities c); split; congruence. Qed.

(** The entities met by the spec's traversal are the live entities. *)
Lemma scene_entries_entities (w : World) :
  map entry_entity (scene_entries w) = iter_entities w.
Proof.
  unfold scene_entries, iter_entities, archetype_entries.
  rewrite !flat_map_concat_map, !concat_map, !map_map. f_equal. apply map_ext. intros a.
  rewrite !flat_map_concat_map, !concat_map, !map_map. f_equal. apply map_ext. intros cs.
  rewrite !flat_map_concat_map, !concat_map, !map_map. f_equal. apply map_ext. intros c.
  unfold chunk_entries, enumerate. rewrite map_map.
  rewrite <- (map_snd_enumerate_from 0 (cs_entities c)) at 2.
  apply map_ext. intros [i e]. reflexivity.
Qed.

(** What the pass needs at one slot: a column and a registration for
    every declared type, the registration calling back once. *)
Definition slot_ok (reg : gmap nat ComponentRegistration)
    (comps : list (ComponentTypeId * ComponentMeta)) (c : ComponentStorage) (slot : nat) : Prop :=
  forall t m, In (t, m) comps -> exists col r,
    components c t = Some col /\ reg !! t = Some r /\
    length (individual_comp_serialize_fn r col slot) = 1.

Lemma invariants_slot_ok (w : World) (reg : gmap nat ComponentRegistration) a c slot :
  columns_complete w -> registry_covers w reg -> callbacks_once_in w reg ->
  live_chunk w a c -> slot < length (cs_entities c) ->
  slot_ok reg (description_components a) c slot.
Proof.
  intros Hcol Hreg Honce Hlive Hslot t m Hin.
  destruct (Hcol a c t m Hlive Hin) as [col Hc].
  destruct (Hreg a c t m Hlive Hin) as [r Hr].
  exists col, r. split; [exact Hc|]. split; [exact Hr|].
  eapply Honce; eauto.
Qed.

(** ** The pass writes the spec's output *)

Section Refinement.
Context {Σ Err : Type}.
Variable step : Σ -> event -> Σ + Err.

Lemma EntityComponent_serialize_single idx col r v :
  individual_comp_serialize_fn r col idx = [v] ->
  @EntityComponent_serialize Σ Err step idx col r = emit step (SerializeComponent v).
Proof. intros H. extensionality st. unfold EntityComponent_serialize. rewrite H. reflexivity. Qed.

Lemma EntityComponents_events idx comps c reg :
  slot_ok reg comps c idx ->
  @EntityComponents_serialize Σ Err step idx comps c reg =
  emit_all step (encode (VSeq (Some (length comps)) (component_values reg c idx comps))).
Proof.
  intros H. unfold EntityComponents_serialize.
  rewrite encode_seq, emit_all_cons, emit_all_app, emit_all_one.
  unfold component_values. rewrite flat_map_of_flat_map.
  erewrite for_each_emit_all; [reflexivity|].
  intros [t m] Hin. destruct (H t m Hin) as (col & r & Hc & Hr & Hlen).
  unfold component_value. simpl fst. unfold get. rewrite Hc, Hr.
  destruct (individual_comp_serialize_fn r col idx) as [|v [|v' vs]] eqn:Hf;
    simpl in Hlen; try discriminate.
  unfold serialize_element. rewrite (EntityComponent_serialize_single idx col r v Hf).
  simpl. rewrite emit_all_cons, emit_all_one. reflexivity.
Qed.

Lemma WorldEntity_events comps reg c e idx :
  slot_ok reg comps c idx ->
  @WorldEntity_serialize Σ Err step comps reg c e idx =
  emit_all step (encode (entity_record reg (mk_entry e comps c idx))).
Proof.
  intros H. unfold WorldEntity_serialize. rewrite (EntityComponents_events idx comps c reg H).
  unfold entity_record. simpl entry_entity; simpl entry_components; simpl entry_storage; simpl entry_slot.
  remember (VSeq _ _) as V eqn:HV.
  cbn [encode app length].
  rewrite !emit_all_cons, emit_all_app, emit_all_one. reflexivity.
Qed.

Lemma for_each_occupied (cs : Chunkset) (F : ComponentStorage -> @M Σ Err unit) :
  (forall c, chunk_is_empty c = true -> F c = mret tt) ->
  for_each (occupied cs) F = for_each (chunks cs) F.
Proof.
  intros HF. unfold occupied.
  destruct (drop_empty_split (rev (chunks cs))) as [E [HE HE']].
  set (D := drop_empty (rev (chunks cs))) in *.
  rewrite <- (rev_involutive (chunks cs)). rewrite HE, rev_app_distr, for_each_app.
  assert (Hnil : for_each (rev E) F = mret tt).
  { apply Forall_rev in HE'. induction (rev E) as [|c E' IH]; [reflexivity|].
    inversion HE'; subst. simpl. rewrite HF by assumption. rewrite bind_ret_l. apply IH.
    assumption. }
  rewrite Hnil. symmetry. apply bind_ret_r.
Qed.

Lemma chunk_events comps reg c :
  (forall slot, slot < length (cs_entities c) -> slot_ok reg comps c slot) ->
  for_each (enumerate (cs_entities c)) (fun '(index, entity) =>
    @serialize_element Σ Err step (WorldEntity_serialize step comps reg c entity index)) =
  emit_all step (flat_map (fun x => SerializeElement :: encode (entity_record reg x))
                          (chunk_entries comps c)).
Proof.
  intros H. unfold chunk_entries. rewrite flat_map_of_map.
  apply for_each_emit_all. intros [i e] Hin.
  apply enumerate_from_bounds in Hin.
  unfold serialize_element. rewrite WorldEntity_events by (apply H; lia).
  reflexivity.
Qed.

Lemma scene_events (sc : Scene) (reg : gmap nat ComponentRegistration) :
  columns_complete (world sc) -> registry_covers (world sc) reg ->
  callbacks_once_in (world sc) reg ->
  @SerializableScene_serialize Σ Err step (SerializableScene_new sc reg) =
  emit_all step (encode (scene_output sc reg)).
Proof.
  intros Hcol Hreg Honce. unfold SerializableScene_serialize, scene_output. cbn [scene component_registry].
  rewrite encode_seq, emit_all_cons, emit_all_app, emit_all_one.
  unfold scene_entries. rewrite flat_map_of_map, flat_map_of_flat_map.
  erewrite for_each_emit_all; [reflexivity|]. intros a Ha.
  unfold archetype_entries. rewrite flat_map_of_flat_map.
  apply for_each_emit_all. intros cs Hcs.
  rewrite flat_map_of_flat_map.
  rewrite for_each_occupied.
  2:{ intros c Hc. apply chunk_is_empty_true in Hc. rewrite Hc. reflexivity. }
  apply for_each_emit_all. intros c Hc.
  cbv beta.
  destruct (chunk_is_empty c) eqn:He.
  - apply chunk_is_empty_true in He. unfold chunk_entries. rewrite He. reflexivity.
  - apply chunk_events. intros slot Hslot.
    eapply invariants_slot_ok; eauto.
    split; [exact Ha|]. split; [exists cs; split; assumption|].
    intros Hnil. apply chunk_is_empty_true in Hnil. congruence.
Qed.

End Refinement.

(** ** Invariants preserved by every step of the pass *)

Lemma drop_empty_incl (l : list ComponentStorage) (c : ComponentStorage) :
  In c (drop_empty l) -> In c l.
Proof.
  induction l as [|c' l IH]; simpl; [tauto|].
  destruct (chunk_is_empty c'); simpl; intros H; [right; apply IH, H|exact H].
Qed.

Lemma occupied_incl (cs : Chunkset) (c : ComponentStorage) :
  In c (occupied cs) -> In c (chunks cs).
Proof.
  unfold occupied. intros H. apply in_rev in H. apply drop_empty_incl in H.
  apply in_rev in H. exact H.
Qed.

Lemma In_occupied (cs : Chunkset) (c : ComponentStorage) :
  In c (chunks cs) -> chunk_is_empty c = false -> In c (occupied cs).
Proof.
  intros Hin Hne. unfold occupied.
  destruct (drop_empty_split (rev (chunks cs))) as [E [HE HF]].
  apply in_rev in Hin. rewrite HE in Hin. apply in_app_or in Hin as [Hin|Hin].
  - rewrite List.Forall_forall in HF. apply HF in Hin. congruence.
  - apply in_rev. rewrite rev_involutive. exact Hin.
Qed.

Lemma enumerate_nonempty {A} (l : list A) (i : nat) (x : A) :
  In (i, x) (enumerate l) -> l <> [].
Proof. destruct l; simpl; [tauto|discriminate]. Qed.

(** [EntityComponent::serialize] by the number of callback calls. *)
Lemma EntityComponent_serialize_cases {Σ Err : Type} (step : Σ -> event -> Σ + Err)
    idx col r st :
  EntityComponent_serialize step idx col r st =
  match individual_comp_serialize_fn r col idx with
  | [] => Panic ResultUnwrap
  | [v] => emit step (SerializeComponent v) st
  | _ :: _ :: _ => Panic TakeUnwrap
  end.
Proof.
  unfold EntityComponent_serialize.
  destruct (individual_comp_serialize_fn r col idx) as [|v [|v' rest]]; reflexivity.
Qed.

Section Invariant.
Context {Σ Err : Type}.
Variable step : Σ -> event -> Σ + Err.
Variable R : @Store Σ -> @Store Σ -> Prop.
Hypothesis R_refl : forall st, R st st.
Hypothesis R_trans : forall st1 st2 st3, R st1 st2 -> R st2 st3 -> R st1 st3.
Variable E : Err -> Prop.
Variable P : panic_site -> Prop.

Definition good_outcome (st : @Store Σ) (o : @outcome Σ Err unit) : Prop :=
  match o with
  | Ok _ st' => R st st'
  | Error e st' => R st st' /\ E e
  | Panic p => P p
  end.

Definition good (m : @M Σ Err unit) : Prop := forall st, good_outcome st (m st).

Hypothesis emit_good : forall ev, good (emit step ev).

Lemma good_ret : good (mret tt).
Proof. intros st. apply R_refl. Qed.

Lemma good_seq (m k : @M Σ Err unit) : good m -> good k -> good (m ;; k).
Proof.
  intros Hm Hk st. unfold mbind, M_bind. specialize (Hm st).
  destruct (m st) as [[] st1|e st1|p]; simpl in *; try tauto.
  specialize (Hk st1). destruct (k st1) as [[] st2|e st2|p]; simpl in *; eauto.
  destruct Hk; eauto.
Qed.

Lemma good_for_each {A} (l : list A) (f : A -> @M Σ Err unit) :
  (forall x, In x l -> good (f x)) -> good (for_each l f).
Proof.
  induction l as [|x l IH]; intros H; simpl; [apply good_ret|].
  apply good_seq; [apply H; left; reflexivity|apply IH; intros y Hy; apply H; right; exact Hy].
Qed.

Lemma good_EntityComponent idx col r :
  P ResultUnwrap -> P TakeUnwrap -> good (EntityComponent_serialize step idx col r).
Proof.
  intros H1 H2 st. rewrite EntityComponent_serialize_cases.
  destruct (individual_comp_serialize_fn r col idx) as [|v [|v' rest]]; simpl; auto.
  apply emit_good.
Qed.

Lemma good_EntityComponents idx comps c reg :
  P ResultUnwrap -> P TakeUnwrap -> P RegistrationUnwrap ->
  (forall t m, In (t, m) comps -> components c t = None -> P ColumnUnwrap) ->
  good (EntityComponents_serialize step idx comps c reg).
Proof.
  intros H1 H2 H3 Hcol. unfold EntityComponents_serialize.
  apply good_seq; [apply emit_good|]. apply good_seq; [|apply emit_good].
  apply good_for_each. intros [t m] Hin.
  destruct (components c t) as [col|] eqn:Hc.
  - destruct (get reg t) as [r|].
    + apply good_seq; [apply emit_good|]. apply good_EntityComponent; assumption.
    + intros st. exact H3.
  - intros st. exact (Hcol t m Hin Hc).
Qed.

Lemma good_scene (sc : Scene) (reg : gmap nat ComponentRegistration) :
  P ResultUnwrap -> P TakeUnwrap -> P RegistrationUnwrap ->
  (forall a c t m, live_chunk (world sc) a c -> In (t, m) (description_components a) ->
     components c t = None -> P ColumnUnwrap) ->
  good (SerializableScene_serialize step (SerializableScene_new sc reg)).
Proof.
  intros H1 H2 H3 Hcol. unfold SerializableScene_serialize. cbn [scene component_registry].
  apply good_seq; [apply emit_good|]. apply good_seq; [|apply emit_good].
  apply good_for_each. intros a Ha. apply good_for_each. intros cs Hcs.
  apply good_for_each. intros c Hc. apply good_for_each. intros [i e] Hie.
  unfold serialize_element, WorldEntity_serialize.
  repeat (apply good_seq; [apply emit_good|]).
  apply good_seq; [|apply emit_good].
  apply good_EntityComponents; try assumption.
  intros t m Hin. apply (Hcol a c t m); [|exact Hin].
  split; [exact Ha|]. split; [exists cs; split; [exact Hcs|apply occupied_incl, Hc]|].
  eapply enumerate_nonempty; eauto.
Qed.

End Invariant.

(** ** A pass that succeeds met a column and a registration everywhere *)

Section Success.
Context {Σ Err : Type}.
Variable step : Σ -> event -> Σ + Err.

Lemma seq_Ok_inv (m k : @M Σ Err unit) st a st' :
  (m ;; k) st = Ok a st' -> exists st1, m st = Ok tt st1 /\ k st1 = Ok a st'.
Proof.
  unfold mbind, M_bind. destruct (m st) as [[] st1| |]; intros H; try discriminate.
  exists st1. split; [reflexivity|exact H].
Qed.

Lemma for_each_Ok_inv {A} (l : list A) (f : A -> @M Σ Err unit) st a st' :
  for_each l f st = Ok a st' -> forall x, In x l -> exists s1 s2, f x s1 = Ok tt s2.
Proof.
  revert st. induction l as [|y l IH]; intros st H x Hx; simpl in *; [contradiction|].
  apply seq_Ok_inv in H as [st1 [H1 H2]].
  destruct Hx as [<-|Hx]; [eauto|]. eapply IH; eauto.
Qed.

Lemma EntityComponents_Ok_inv idx comps c reg st a st' :
  EntityComponents_serialize step idx comps c reg st = Ok a st' ->
  forall t m, In (t, m) comps -> is_Some (components c t) /\ is_Some (reg !! t).
Proof.
  unfold EntityComponents_serialize. intros H t m Hin.
  apply seq_Ok_inv in H as [st1 [_ H]]. apply seq_Ok_inv in H as [st2 [H _]].
  destruct (for_each_Ok_inv _ _ _ _ _ H (t, m) Hin) as (s1 & s2 & Hb).
  cbn in Hb. destruct (components c t) as [col|]; [|discriminate].
  unfold get in Hb. destruct (reg !! t) as [r|]; [|discriminate].
  split; eexists; reflexivity.
Qed.

Lemma scene_Ok_inv (sc : Scene) (reg : gmap nat ComponentRegistration) st a0 st' :
  SerializableScene_serialize step (SerializableScene_new sc reg) st = Ok a0 st' ->
  forall a c t m, live_chunk (world sc) a c -> In (t, m) (description_components a) ->
    is_Some (components c t) /\ is_Some (reg !! t).
Proof.
  intros H a c t m (Ha & (cs & Hcs & Hc) & Hne) Hin.
  unfold SerializableScene_serialize in H. cbn [scene component_registry] in H.
  apply seq_Ok_inv in H as [st1 [_ H]]. apply seq_Ok_inv in H as [st2 [H _]].
  destruct (for_each_Ok_inv _ _ _ _ _ H a Ha) as (s1 & s2 & H1).
  destruct (for_each_Ok_inv _ _ _ _ _ H1 cs Hcs) as (s3 & s4 & H2).
  assert (Hocc : In c (occupied cs)).
  { apply In_occupied; [exact Hc|]. destruct (chunk_is_empty c) eqn:E; [|reflexivity].
    apply chunk_is_empty_true in E. contradiction. }
  destruct (for_each_Ok_inv _ _ _ _ _ H2 c Hocc) as (s5 & s6 & H3).
  destruct (cs_entities c) as [|e0 es] eqn:He; [contradiction|].
  assert (Hin0 : In (0, e0) (enumerate (e0 :: es))) by (left; reflexivity).
  destruct (for_each_Ok_inv _ _ _ _ _ H3 (0, e0) Hin0) as (s7 & s8 & H4).
  cbn beta iota in H4. unfold serialize_element, WorldEntity_serialize in H4.
  do 5 (apply seq_Ok_inv in H4 as [? [_ H4]]).
  apply seq_Ok_inv in H4.
  destruct H4 as [st9 [H4 _]].
  exact (EntityComponents_Ok_inv _ _ _ _ _ _ _ H4 t m Hin).
Qed.

End Success.

(** ** The sink sees a fixed sequence of calls *)

Section Feed.
Context {Σ Err : Type}.
Variable step : Σ -> event -> Σ + Err.

(** Feeding calls to the sink, stopping at its first error. *)
Fixpoint feed (s : Σ) (evs : list event) : Σ + Err :=
  match evs with
  | [] => inl s
  | ev :: evs' =>
      match step s ev with
      | inl s' => feed s' evs'
      | inr e => inr e
      end
  end.

Lemma emit_all_feed (evs : list event) (st : @Store Σ) :
  (forall s, feed (st_sink st) evs = inl s ->
     emit_all step evs st = Ok tt (mk_store (st_scene st) (st_registry st) s)) /\
  (forall e, feed (st_sink st) evs = inr e ->
     exists st', @emit_all Σ Err step evs st = Error e st').
Proof.
  revert st. induction evs as [|ev evs IH]; intros st; split; simpl.
  - intros s [= <-]. destruct st. reflexivity.
  - intros e [=].
  - intros s Hs. rewrite emit_all_cons. unfold mbind, M_bind, emit.
    destruct (step (st_sink st) ev) as [s'|e] eqn:Hst; [|discriminate].
    apply (proj1 (IH (mk_store (st_scene st) (st_registry st) s'))). exact Hs.
  - intros e He. rewrite emit_all_cons. unfold mbind, M_bind, emit.
    destruct (step (st_sink st) ev) as [s'|e'] eqn:Hst.
    + apply (proj2 (IH (mk_store (st_scene st) (st_registry st) s'))). exact He.
    + inversion He; subst. eexists. reflexivity.
Qed.

End Feed.

(** ** The outcome depends only on what the traversal reads *)

(** Two chunks the traversal cannot tell apart: the same entities and the
    same column for every type id (the column list may be stored in any
    order). *)
Definition chunk_equiv (c1 c2 : ComponentStorage) : Prop :=
  cs_entities c1 = cs_entities c2 /\ forall t, components c1 t = components c2 t.

Definition chunkset_equiv (cs1 cs2 : Chunkset) : Prop :=
  Forall2 chunk_equiv (chunks cs1) (chunks cs2).

Definition archetype_equiv (a1 a2 : ArchetypeData) : Prop :=
  description_components a1 = description_components a2 /\
  Forall2 chunkset_equiv (chunksets a1) (chunksets a2).

Definition world_equiv (w1 w2 : World) : Prop :=
  Forall2 archetype_equiv (archetypes w1) (archetypes w2).

Lemma Forall2_rev' {A B} (R : A -> B -> Prop) l1 l2 :
  Forall2 R l1 l2 -> Forall2 R (rev l1) (rev l2).
Proof.
  induction 1; simpl; [constructor|]. apply Forall2_app; [assumption|].
  constructor; [assumption|constructor].
Qed.

Lemma occupied_equiv (cs1 cs2 : Chunkset) :
  chunkset_equiv cs1 cs2 -> Forall2 chunk_equiv (occupied cs1) (occupied cs2).
Proof.
  unfold chunkset_equiv, occupied. intros H. apply Forall2_rev'.
  apply Forall2_rev' in H. induction H as [|c1 c2 l1 l2 Hc Hl IH]; simpl; [constructor|].
  assert (E : chunk_is_empty c1 = chunk_is_empty c2)
    by (unfold chunk_is_empty; destruct Hc as [-> _]; reflexivity).
  rewrite E. destruct (chunk_is_empty c2); [exact IH|]. constructor; assumption.
Qed.

Lemma iter_entities_equiv (w1 w2 : World) :
  world_equiv w1 w2 -> iter_entities w1 = iter_entities w2.
Proof.
  unfold world_equiv, iter_entities. induction 1 as [|a1 a2 l1 l2 [_ Ha] _ IH]; simpl;
    [reflexivity|]. rewrite IH. f_equal. clear IH.
  induction Ha as [|cs1 cs2 k1 k2 Hcs _ IH]; simpl; [reflexivity|]. rewrite IH. f_equal.
  clear IH. unfold chunkset_equiv in Hcs.
  induction Hcs as [|c1 c2 m1 m2 [Hc _] _ IH]; simpl; [reflexivity|]. rewrite Hc, IH.
  reflexivity.
Qed.

Section Determinism.
Context {Σ Err : Type}.
Variable step : Σ -> event -> Σ + Err.

(** What a caller observes of an outcome: the result with the sink's final
    state, the error with the sink's state, or the panic. *)
Definition outcome_view {A} (o : @outcome Σ Err A) : (A * Σ + Err * Σ) + panic_site :=
  match o with
  | Ok a st => inl (inl (a, st_sink st))
  | Error e st => inl (inr (e, st_sink st))
  | Panic p => inr p
  end.

Definition sim (m1 m2 : @M Σ Err unit) : Prop :=
  forall st1 st2, st_sink st1 = st_sink st2 -> outcome_view (m1 st1) = outcome_view (m2 st2).

Lemma sim_emit ev : sim (emit step ev) (emit step ev).
Proof.
  intros st1 st2 Hs. unfold emit. rewrite Hs.
  destruct (step (st_sink st2) ev); simpl; congruence.
Qed.

Lemma sim_ret : sim (mret tt) (mret tt).
Proof. intros st1 st2 Hs. simpl. congruence. Qed.

Lemma sim_panic p : sim (panic p) (panic p).
Proof. intros st1 st2 _. reflexivity. Qed.

Lemma sim_seq m1 m2 k1 k2 : sim m1 m2 -> sim k1 k2 -> sim (m1 ;; k1) (m2 ;; k2).
Proof.
  intros Hm Hk st1 st2 Hs. specialize (Hm st1 st2 Hs). unfold mbind, M_bind.
  destruct (m1 st1) as [[] s1|e1 s1|p1], (m2 st2) as [[] s2|e2 s2|p2];
    simpl in Hm; try discriminate; try exact Hm.
  apply Hk. congruence.
Qed.

Lemma sim_for_each2 {A B} (Rx : A -> B -> Prop) l1 l2 f1 f2 :
  Forall2 Rx l1 l2 -> (forall x1 x2, Rx x1 x2 -> sim (f1 x1) (f2 x2)) ->
  sim (for_each l1 f1) (for_each l2 f2).
Proof.
  intros Hl Hf. induction Hl; simpl; [apply sim_ret|].
  apply sim_seq; [apply Hf; assumption|assumption].
Qed.

Lemma sim_for_each {A} (l : list A) f1 f2 :
  (forall x, In x l -> sim (f1 x) (f2 x)) -> sim (for_each l f1) (for_each l f2).
Proof.
  induction l as [|x l IH]; intros H; simpl; [apply sim_ret|].
  apply sim_seq; [apply H; left; reflexivity|apply IH; intros y Hy; apply H; right; exact Hy].
Qed.

Lemma sim_EntityComponent idx col r :
  sim (EntityComponent_serialize step idx col r) (EntityComponent_serialize step idx col r).
Proof.
  intros st1 st2 Hs. rewrite !EntityComponent_serialize_cases.
  destruct (individual_comp_serialize_fn r col idx) as [|v [|v' rest]]; try reflexivity.
  apply sim_emit; assumption.
Qed.

Lemma sim_WorldEntity comps reg c1 c2 e idx :
  chunk_equiv c1 c2 ->
  sim (WorldEntity_serialize step comps reg c1 e idx)
      (WorldEntity_serialize step comps reg c2 e idx).
Proof.
  intros [_ Hcol]. unfold WorldEntity_serialize, EntityComponents_serialize.
  repeat (apply sim_seq; [apply sim_emit|]).
  apply sim_seq; [|apply sim_emit]. apply sim_seq; [apply sim_emit|].
  apply sim_seq; [|apply sim_emit]. apply sim_for_each. intros [t m] _.
  rewrite Hcol. destruct (components c2 t); [|apply sim_panic].
  destruct (get reg t); [|apply sim_panic].
  apply sim_seq; [apply sim_emit|apply sim_EntityComponent].
Qed.

Lemma sim_scene (sc1 sc2 : Scene) (reg : gmap nat ComponentRegistration) :
  world_equiv (world sc1) (world sc2) ->
  sim (SerializableScene_serialize step (SerializableScene_new sc1 reg))
      (SerializableScene_serialize step (SerializableScene_new sc2 reg)).
Proof.
  intros Hw. unfold SerializableScene_serialize. cbn [scene component_registry].
  rewrite (iter_entities_equiv _ _ Hw).
  apply sim_seq; [apply sim_emit|]. apply sim_seq; [|apply sim_emit].
  apply (sim_for_each2 archetype_equiv); [exact Hw|]. intros a1 a2 [Hd Ha].
  rewrite Hd. apply (sim_for_each2 chunkset_equiv); [exact Ha|]. intros cs1 cs2 Hcs.
  apply (sim_for_each2 chunk_equiv); [apply occupied_equiv, Hcs|]. intros c1 c2 Hc.
  pose proof Hc as [He _]. rewrite He. apply sim_for_each. intros [i e] _.
  apply sim_seq; [apply sim_emit|]. apply sim_WorldEntity. exact Hc.
Qed.

End Determinism.

(** ** The decidable check is sound *)

Lemma chunk_wfb_sound reg comps c :
  chunk_wfb reg comps c = true -> cs_entities c <> [] ->
  forall t m, In (t, m) comps -> exists col r,
    components c t = Some col /\ reg !! t = Some r /\
    forall slot, slot < length (cs_entities c) ->
      length (individual_comp_serialize_fn r col slot) = 1.
Proof.
  unfold chunk_wfb. intros H Hne t m Hin.
  assert (He : chunk_is_empty c = false).
  { destruct (chunk_is_empty c) eqn:E; [apply chunk_is_empty_true in E; contradiction|reflexivity]. }
  rewrite He in H. simpl in H. rewrite forallb_forall in H. specialize (H (t, m) Hin).
  simpl in H. destruct (components c t) as [col|]; [|discriminate].
  destruct (reg !! t) as [r|]; [|discriminate].
  exists col, r. split; [reflexivity|]. split; [reflexivity|].
  intros slot Hslot. rewrite forallb_forall in H.
  apply Nat.eqb_eq, H, in_seq. lia.
Qed.

Lemma scene_wfb_sound (w : World) (reg : gmap nat ComponentRegistration) :
  scene_wfb w reg = true ->
  columns_complete w /\ registry_covers w reg /\ callbacks_once_in w reg.
Proof.
  unfold scene_wfb. intros H.
  assert (Hc : forall a c t m, live_chunk w a c -> In (t, m) (description_components a) ->
    exists col r, components c t = Some col /\ reg !! t = Some r /\
      forall slot, slot < length (cs_entities c) ->
        length (individual_comp_serialize_fn r col slot) = 1).
  { intros a c t m (Ha & (cs & Hcs & Hc) & Hne) Hin.
    rewrite forallb_forall in H. specialize (H a Ha).
    rewrite forallb_forall in H. specialize (H cs Hcs).
    rewrite forallb_forall in H. specialize (H c Hc).
    eapply chunk_wfb_sound; eauto. }
  split; [|split].
  - intros a c t m Hl Hin. destruct (Hc a c t m Hl Hin) as (col & r & H1 & _). rewrite H1. eexists; reflexivity.
  - intros a c t m Hl Hin. destruct (Hc a c t m Hl Hin) as (col & r & _ & H2 & _). rewrite H2. eexists; reflexivity.
  - intros a c t m col r slot Hl Hin Hcol Hr Hslot.
    destruct (Hc a c t m Hl Hin) as (col' & r' & H1 & H2 & H3).
    rewrite Hcol in H1. rewrite Hr in H2. inversion H1; inversion H2; subst. apply H3, Hslot.
Qed.

(** Every slot met by the spec's traversal lies in a live chunk of its
    archetype. *)
Lemma scene_entries_origin (w : World) (x : entry) :
  In x (scene_entries w) ->
  exists a, live_chunk w a (entry_storage x) /\
    entry_components x = description_components a /\
    entry_slot x < length (cs_entities (entry_storage x)).
Proof.
  unfold scene_entries, archetype_entries. intros H.
  apply in_flat_map in H as (a & Ha & H). apply in_flat_map in H as (cs & Hcs & H).
  apply in_flat_map in H as (c & Hc & H).
  unfold chunk_entries in H. apply in_map_iff in H as ([i e] & <- & Hie).
  pose proof (enumerate_from_bounds 0 _ _ _ Hie) as Hb.
  exists a. simpl. split; [|split; [reflexivity|lia]].
  split; [exact Ha|]. split; [exists cs; split; assumption|].
  intros Hnil. rewrite Hnil in Hb. simpl in Hb. lia.
Qed.

Lemma component_values_single reg c slot comps :
  slot_ok reg comps c slot ->
  Forall2 (fun tm v => exists col r u,
             components c (fst tm) = Some col /\ reg !! fst tm = Some r /\
             individual_comp_serialize_fn r col slot = [u] /\ v = VComponent u)
          comps (component_values reg c slot comps).
Proof.
  intros H. induction comps as [|[t m] comps IH]; simpl; [constructor|].
  destruct (H t m (or_introl eq_refl)) as (col & r & Hc & Hr & Hlen).
  unfold component_value at 1. simpl fst. rewrite Hc, Hr.
  destruct (individual_comp_serialize_fn r col slot) as [|u [|u' us]] eqn:Hf;
    simpl in Hlen; try discriminate.
  simpl. constructor.
  - exists col, r, u. repeat split; assumption.
  - apply IH. intros t' m' Hin. apply (H t' m'). right. exact Hin.
Qed.

(** * Properties of the pass *)

Section Claims.
Context {Σ Err : Type}.
Variable step : Σ -> event -> Σ + Err.

(** C1 (completeness).  For a scene whose chunks hold a column for each
    declared type, whose component types are all registered and whose
    registrations serialize one instance, the pass writes a sequence
    announced with the live-entity count N whose elements are one record
    per occupied slot; the slots' entities are exactly the live entities,
    in traversal order, so there are N elements, each live entity once. *)
Theorem serialize_emits_one_record_per_live_entity (st : @Store Σ) :
  columns_complete (world (st_scene st)) ->
  registry_covers (world (st_scene st)) (st_registry st) ->
  callbacks_once_in (world (st_scene st)) (st_registry st) ->
  @serialize_pass Σ Err step st =
    emit_all step
      (encode (VSeq (Some (length (iter_entities (world (st_scene st)))))
                    (map (entity_record (st_registry st))
                         (scene_entries (world (st_scene st)))))) st /\
  map entry_entity (scene_entries (world (st_scene st))) = iter_entities (world (st_scene st)) /\
  length (map (entity_record (st_registry st)) (scene_entries (world (st_scene st)))) =
    length (iter_entities (world (st_scene st))).
Proof.
  intros Hcol Hreg Honce. unfold serialize_pass.
  rewrite scene_events by assumption.
  split; [reflexivity|]. split; [apply scene_entries_entities|].
  rewrite length_map, <- scene_entries_entities, length_map. reflexivity.
Qed.

(** C2 (per-entity shape).  Under the same invariants, every record is
    the struct [Entity] with the fields [id] then [components]; the
    [components] sequence has one element per type declared by the
    entity's archetype, the i-th produced by the registration of the i-th
    declared type. *)
Theorem serialize_record_shape (st : @Store Σ) :
  columns_complete (world (st_scene st)) ->
  registry_covers (world (st_scene st)) (st_registry st) ->
  callbacks_once_in (world (st_scene st)) (st_registry st) ->
  @serialize_pass Σ Err step st =
    emit_all step (encode (scene_output (st_scene st) (st_registry st))) st /\
  forall x, In x (scene_entries (world (st_scene st))) ->
    exists a vs,
      In a (archetypes (world (st_scene st))) /\
      entry_components x = description_components a /\
      entity_record (st_registry st) x =
        VStruct "Entity"%string
          [("id"%string, VU32 (Entity_index (entry_entity x)));
           ("components"%string, VSeq (Some (length (description_components a))) vs)] /\
      Forall2 (fun tm v => exists col r u,
                 components (entry_storage x) (fst tm) = Some col /\
                 st_registry st !! fst tm = Some r /\
                 individual_comp_serialize_fn r col (entry_slot x) = [u] /\
                 v = VComponent u)
              (description_components a) vs.
Proof.
  intros Hcol Hreg Honce. unfold serialize_pass.
  rewrite scene_events by assumption. split; [reflexivity|].
  intros x Hx. destruct (scene_entries_origin _ _ Hx) as (a & Hlive & Hcomps & Hslot).
  exists a, (component_values (st_registry st) (entry_storage x) (entry_slot x)
               (entry_components x)).
  split; [apply Hlive|]. split; [exact Hcomps|]. split.
  - unfold entity_record. rewrite Hcomps. reflexivity.
  - rewrite <- Hcomps. apply component_values_single. rewrite Hcomps.
    eapply invariants_slot_ok; eauto.
Qed.

(** C3 (identity).  Under the same invariants, the [id] fields of the
    records, in output order, are the indices ([Entity::index], not the
    generation) of the live entities. *)
Theorem serialize_record_ids (st : @Store Σ) :
  columns_complete (world (st_scene st)) ->
  registry_covers (world (st_scene st)) (st_registry st) ->
  callbacks_once_in (world (st_scene st)) (st_registry st) ->
  @serialize_pass Σ Err step st =
    emit_all step (encode (scene_output (st_scene st) (st_registry st))) st /\
  map (fun x => record_id (entity_record (st_registry st) x))
      (scene_entries (world (st_scene st))) =
  map (fun e => Some (entity_index e)) (iter_entities (world (st_scene st))).
Proof.
  intros Hcol Hreg Honce. unfold serialize_pass.
  rewrite scene_events by assumption. split; [reflexivity|].
  rewrite <- scene_entries_entities, map_map. apply map_ext. intros x. reflexivity.
Qed.

(** C8 (frame).  Whether the pass succeeds or returns a sink error, the
    scene and the registry of the store are those it started with. *)
Theorem serialize_leaves_scene_and_registry (st : @Store Σ) :
  match @serialize_pass Σ Err step st with
  | Ok _ st' | Error _ st' => st_scene st' = st_scene st /\ st_registry st' = st_registry st
  | Panic _ => True
  end.
Proof.
  set (R := fun st1 st2 : @Store Σ =>
              st_scene st2 = st_scene st1 /\ st_registry st2 = st_registry st1).
  assert (Hemit : forall ev, good R (fun _ : Err => True) (fun _ => True) (emit step ev)).
  { intros ev st0. unfold good_outcome, emit, R.
    destruct (step (st_sink st0) ev); simpl; tauto. }
  pose proof (good_scene step R (fun _ => conj eq_refl eq_refl)
                (fun _ _ _ H1 H2 => conj (eq_trans (proj1 H2) (proj1 H1))
                                         (eq_trans (proj2 H2) (proj2 H1)))
                (fun _ => True) (fun _ => True) Hemit
                (st_scene st) (st_registry st) I I I (fun _ _ _ _ _ _ _ => I) st) as Hgood.
  unfold serialize_pass. unfold good_outcome, R in Hgood.
  destruct (SerializableScene_serialize step _ st); tauto.
Qed.

(** C10.  [EntityComponent::serialize] returns without panicking exactly
    when the registration calls back once: no call panics at
    [result.unwrap()], a second call panics at the [take().unwrap()] of
    the consumed serializer, one call serializes its value. *)
Theorem EntityComponent_panics_unless_one_callback idx col r (st : @Store Σ) :
  ((forall p, @EntityComponent_serialize Σ Err step idx col r st <> Panic p) <->
   length (individual_comp_serialize_fn r col idx) = 1) /\
  @EntityComponent_serialize Σ Err step idx col r st =
    match individual_comp_serialize_fn r col idx with
    | [] => Panic ResultUnwrap
    | [v] => emit step (SerializeComponent v) st
    | _ :: _ :: _ => Panic TakeUnwrap
    end.
Proof.
  rewrite EntityComponent_serialize_cases. split; [|reflexivity].
  destruct (individual_comp_serialize_fn r col idx) as [|v [|v' rest]]; simpl.
  - split; [intros H; exfalso; apply (H ResultUnwrap); reflexivity|discriminate].
  - split; [reflexivity|]. intros _ p. unfold emit.
    destruct (step (st_sink st) (SerializeComponent v)); discriminate.
  - split; [intros H; exfalso; apply (H TakeUnwrap); reflexivity|discriminate].
Qed.

End Claims.

(** C7.  Registering a second registration for the same type id replaces
    the first, without error: the registry is the one with only the second
    registered, [get] returns it, other ids are untouched and an
    unregistered id still gives [None]. *)
Theorem register_twice_last_wins (reg : gmap nat ComponentRegistration)
    (r1 r2 : ComponentRegistration) (Hty : ty r1 = ty r2) :
  register (register reg r1) r2 = register reg r2 /\
  get (register (register reg r1) r2) (ty r2) = Some r2 /\
  (forall k, k <> ty r2 -> get (register (register reg r1) r2) k = get reg k) /\
  (forall k, k <> ty r2 -> get reg k = None -> get (register (register reg r1) r2) k = None).
Proof.
  unfold register, get. rewrite Hty, insert_insert_eq.
  split; [reflexivity|]. split; [apply lookup_insert_eq|].
  split; intros k Hk; [|intros Hn]; rewrite lookup_insert_ne by congruence; auto.
Qed.

Section Failures.
Context {Σ Err : Type}.
Variable step : Σ -> event -> Σ + Err.

(** Every error a pass returns is one the sink returned. *)
Lemma pass_errors_from_sink (st : @Store Σ) e st' :
  @serialize_pass Σ Err step st = Error e st' -> exists s ev, step s ev = inr e.
Proof.
  set (E := fun e : Err => exists s ev, step s ev = inr e).
  assert (Hemit : forall ev, good (fun _ _ : @Store Σ => True) E (fun _ => True) (emit step ev)).
  { intros ev st0. unfold good_outcome, emit.
    destruct (step (st_sink st0) ev) eqn:Hs; simpl; [exact I|]. split; [exact I|].
    exists (st_sink st0), ev. exact Hs. }
  pose proof (good_scene step (fun _ _ => True) (fun _ => I) (fun _ _ _ _ _ => I) E
                (fun _ => True) Hemit (st_scene st) (st_registry st) I I I
                (fun _ _ _ _ _ _ _ => I) st) as Hgood.
  unfold serialize_pass. intros H. rewrite H in Hgood. apply Hgood.
Qed.

(** A pass that returns neither success nor a sink error has panicked;
    with a sink that never fails, a pass that does not succeed panics. *)
Lemma pass_panics_unless_ok (st : @Store Σ) :
  (forall s ev, exists s', step s ev = inl s') ->
  (forall r st', @serialize_pass Σ Err step st <> Ok r st') ->
  exists p, serialize_pass step st = Panic p.
Proof.
  intros Hsink Hok. destruct (serialize_pass step st) as [r st'|e st'|p] eqn:Hp.
  - exfalso. exact (Hok r st' eq_refl).
  - apply pass_errors_from_sink in Hp as (s & ev & Hs).
    destruct (Hsink s ev) as [s' Hs']. congruence.
  - exists p. reflexivity.
Qed.

(** C5 (determinism).  The outcome of a pass, with the sink's final state,
    is a function of what the traversal reads: two stores whose worlds
    agree on archetypes, entities and column lookups, with the same
    registry and the same sink state, give the same outcome (in particular
    two passes over the same store give the same output). *)
Theorem serialize_deterministic (st1 st2 : @Store Σ) :
  world_equiv (world (st_scene st1)) (world (st_scene st2)) ->
  st_registry st1 = st_registry st2 -> st_sink st1 = st_sink st2 ->
  outcome_view (@serialize_pass Σ Err step st1) = outcome_view (@serialize_pass Σ Err step st2).
Proof.
  intros Hw Hreg Hsink. unfold serialize_pass. rewrite Hreg.
  apply sim_scene; assumption.
Qed.

(** C6 (sink errors).  Under the invariants of C1, the pass returns the
    error [e] exactly when the sink, fed the calls of the output one by
    one, first fails with [e]; when the sink accepts them all the pass
    succeeds with the sink's final state; and every error the pass returns
    comes from the sink. *)
Theorem sink_errors_propagated (st : @Store Σ) :
  columns_complete (world (st_scene st)) ->
  registry_covers (world (st_scene st)) (st_registry st) ->
  callbacks_once_in (world (st_scene st)) (st_registry st) ->
  (forall e, (exists st', @serialize_pass Σ Err step st = Error e st') <->
             feed step (st_sink st) (encode (scene_output (st_scene st) (st_registry st))) = inr e) /\
  (forall s, feed step (st_sink st) (encode (scene_output (st_scene st) (st_registry st))) = inl s ->
             @serialize_pass Σ Err step st = Ok tt (mk_store (st_scene st) (st_registry st) s)) /\
  (forall e st', @serialize_pass Σ Err step st = Error e st' -> exists s ev, step s ev = inr e).
Proof.
  intros Hcol Hreg Honce.
  assert (Hpass : @serialize_pass Σ Err step st =
                  emit_all step (encode (scene_output (st_scene st) (st_registry st))) st).
  { unfold serialize_pass. rewrite scene_events by assumption. reflexivity. }
  pose proof (emit_all_feed step (encode (scene_output (st_scene st) (st_registry st))) st)
    as [Hinl Hinr].
  split; [|split].
  - intros e. split.
    + intros [st' He]. rewrite Hpass in He.
      destruct (feed step (st_sink st) _) as [s|e'] eqn:Hf.
      * rewrite (Hinl s eq_refl) in He. discriminate.
      * destruct (Hinr e' eq_refl) as [st'' He']. rewrite He' in He. congruence.
    + intros Hf. rewrite Hpass. apply Hinr. exact Hf.
  - intros s Hf. rewrite Hpass. apply Hinl. exact Hf.
  - apply pass_errors_from_sink.
Qed.

End Failures.

(** * Concrete scenes *)

Example example_pass_output :
  @serialize_pass (list event) unit record_step example_store =
  Ok tt (mk_store (mk_scene example_world) example_registry
           (encode (scene_output (mk_scene example_world) example_registry))).
Proof. vm_compute. reflexivity. Qed.

Example example_pass_unregistered :
  @serialize_pass (list event) unit record_step store_without_velocity = Panic RegistrationUnwrap.
Proof. vm_compute. reflexivity. Qed.

Example example_pass_missing_column :
  @serialize_pass (list event) unit record_step store_missing_column = Panic ColumnUnwrap.
Proof. vm_compute. reflexivity. Qed.

Example example_pass_reordered :
  outcome_view (@serialize_pass (list event) unit record_step store_reordered) =
  outcome_view (@serialize_pass (list event) unit record_step example_store).
Proof. vm_compute. reflexivity. Qed.

Lemma live_chunk_B : live_chunk example_world archetype_B chunk_B.
Proof.
  split; [right; left; reflexivity|].
  split; [exists chunkset_B; split; left; reflexivity|discriminate].
Qed.

Lemma live_chunk_no_velocity :
  live_chunk world_missing_column archetype_no_velocity_column chunk_no_velocity.
Proof.
  split; [left; reflexivity|].
  split; [exists (mk_chunkset [chunk_no_velocity]); split; left; reflexivity|discriminate].
Qed.

Lemma example_invariants :
  columns_complete example_world /\ registry_covers example_world example_registry /\
  callbacks_once_in example_world example_registry.
Proof. apply scene_wfb_sound. vm_compute. reflexivity. Qed.

Lemma example_world_reordered_equiv : world_equiv example_world example_world_reordered.
Proof.
  unfold world_equiv. simpl. constructor; [|constructor; [|constructor]].
  - split; [reflexivity|]. repeat constructor.
  - split; [reflexivity|]. repeat constructor. intros t. unfold components. simpl.
    destruct t as [|[|t]]; reflexivity.
Qed.

(** * Witnesses *)

Lemma serialize_emits_one_record_per_live_entity_witness :
  columns_complete example_world /\ registry_covers example_world example_registry /\
  callbacks_once_in example_world example_registry /\
  (@serialize_pass (list event) unit record_step example_store =
     emit_all record_step
       (encode (VSeq (Some (length (iter_entities example_world)))
                     (map (entity_record example_registry) (scene_entries example_world))))
       example_store /\
   map entry_entity (scene_entries example_world) = iter_entities example_world /\
   length (map (entity_record example_registry) (scene_entries example_world)) =
     length (iter_entities example_world)).
Proof.
  destruct example_invariants as (H1 & H2 & H3).
  split; [exact H1|]. split; [exact H2|]. split; [exact H3|].
  exact (serialize_emits_one_record_per_live_entity record_step example_store H1 H2 H3).
Defined.

Lemma serialize_record_shape_witness :
  columns_complete example_world /\ registry_covers example_world example_registry /\
  callbacks_once_in example_world example_registry /\
  (@serialize_pass (list event) unit record_step example_store =
     emit_all record_step (encode (scene_output (mk_scene example_world) example_registry))
       example_store /\
   forall x, In x (scene_entries example_world) ->
     exists a vs,
       In a (archetypes example_world) /\
       entry_components x = description_components a /\
       entity_record example_registry x =
         VStruct "Entity"%string
           [("id"%string, VU32 (Entity_index (entry_entity x)));
            ("components"%string, VSeq (Some (length (description_components a))) vs)] /\
       Forall2 (fun tm v => exists col r u,
                  components (entry_storage x) (fst tm) = Some col /\
                  example_registry !! fst tm = Some r /\
                  individual_comp_serialize_fn r col (entry_slot x) = [u] /\
                  v = VComponent u)
               (description_components a) vs).
Proof.
  destruct example_invariants as (H1 & H2 & H3).
  split; [exact H1|]. split; [exact H2|]. split; [exact H3|].
  exact (serialize_record_shape record_step example_store H1 H2 H3).
Defined.

Lemma serialize_record_ids_witness :
  columns_complete example_world /\ registry_covers example_world example_registry /\
  callbacks_once_in example_world example_registry /\
  (@serialize_pass (list event) unit record_step example_store =
     emit_all record_step (encode (scene_output (mk_scene example_world) example_registry))
       example_store /\
   map (fun x => record_id (entity_record example_registry x)) (scene_entries example_world) =
   map (fun e => Some (entity_index e)) (iter_entities example_world)).
Proof.
  destruct example_invariants as (H1 & H2 & H3).
  split; [exact H1|]. split; [exact H2|]. split; [exact H3|].
  exact (serialize_record_ids record_step example_store H1 H2 H3).
Defined.

Lemma serialize_deterministic_witness :
  world_equiv example_world example_world_reordered /\
  example_registry = example_registry /\ @nil event = @nil event /\
  outcome_view (@serialize_pass (list event) unit record_step example_store) =
  outcome_view (@serialize_pass (list event) unit record_step store_reordered).
Proof.
  split; [exact example_world_reordered_equiv|]. split; [reflexivity|]. split; [reflexivity|].
  exact (serialize_deterministic record_step example_store store_reordered
           example_world_reordered_equiv eq_refl eq_refl).
Defined.

Lemma sink_errors_propagated_witness :
  columns_complete example_world /\ registry_covers example_world example_registry /\
  callbacks_once_in example_world example_registry /\
  ((forall e, (exists st', @serialize_pass (list event) string failing_step store_failing = Error e st') <->
              feed failing_step [] (encode (scene_output (mk_scene example_world) example_registry)) = inr e) /\
   (forall s, feed failing_step [] (encode (scene_output (mk_scene example_world) example_registry)) = inl s ->
              @serialize_pass (list event) string failing_step store_failing =
              Ok tt (mk_store (mk_scene example_world) example_registry s)) /\
   (forall e st', @serialize_pass (list event) string failing_step store_failing = Error e st' ->
              exists s ev, failing_step s ev = inr e)).
Proof.
  destruct example_invariants as (H1 & H2 & H3).
  split; [exact H1|]. split; [exact H2|]. split; [exact H3|].
  exact (sink_errors_propagated failing_step store_failing H1 H2 H3).
Defined.

Lemma register_twice_last_wins_witness :
  ty (ComponentRegistration_of Position nth_value) =
    ty (ComponentRegistration_of Position (fun _ _ => 7)) /\
  register (register example_registry (ComponentRegistration_of Position nth_value))
           (ComponentRegistration_of Position (fun _ _ => 7)) =
    register example_registry (ComponentRegistration_of Position (fun _ _ => 7)) /\
  get (register (register example_registry (ComponentRegistration_of Position nth_value))
                (ComponentRegistration_of Position (fun _ _ => 7))) Position =
    Some (ComponentRegistration_of Position (fun _ _ => 7)) /\
  (forall k, k <> Position ->
     get (register (register example_registry (ComponentRegistration_of Position nth_value))
                   (ComponentRegistration_of Position (fun _ _ => 7))) k =
     get example_registry k) /\
  (forall k, k <> Position -> get example_registry k = None ->
     get (register (register example_registry (ComponentRegistration_of Position nth_value))
                   (ComponentRegistration_of Position (fun _ _ => 7))) k = None).
Proof.
  split; [reflexivity|].
  exact (register_twice_last_wins example_registry (ComponentRegistration_of Position nth_value)
           (ComponentRegistration_of Position (fun _ _ => 7)) eq_refl).
Defined.

(** * Counterexamples *)

(** C4: with a sink that fails on its first call, a world holding an
    unregistered component does not panic: the pass returns the sink's
    error. *)
Lemma unregistered_component_sink_error_first :
  live_chunk example_world archetype_B chunk_B /\
  In (Velocity, 8) (description_components archetype_B) /\
  registry_without_velocity !! Velocity = None /\
  @serialize_pass (list event) string failing_step store_without_velocity =
    Error "io error"%string store_without_velocity /\
  (forall p, @serialize_pass (list event) string failing_step store_without_velocity <> Panic p).
Proof.
  split; [exact live_chunk_B|]. split; [right; left; reflexivity|].
  split; [vm_compute; reflexivity|]. split; [vm_compute; reflexivity|].
  intros p. vm_compute. discriminate.
Qed.

(** * Further properties of scene.rs *)

(** ** Helpers *)

Lemma flat_map_nil_inv {A B} (f : A -> list B) (l : list A) x :
  flat_map f l = [] -> In x l -> f x = [].
Proof.
  induction l as [|y l IH]; simpl; [tauto|]. intros H [<-|Hx].
  - apply app_eq_nil in H. tauto.
  - apply app_eq_nil in H as [_ H]. apply IH; assumption.
Qed.

Lemma map_flat_map' {A B C} (f : B -> C) (g : A -> list B) (l : list A) :
  map f (flat_map g l) = flat_map (fun x => map f (g x)) l.
Proof. induction l as [|x l IH]; simpl; [reflexivity|]. rewrite map_app, IH. reflexivity. Qed.

Lemma enumerate_from_nth_error {A} (n : nat) (l : list A) (i : nat) (x : A) :
  nth_error l i = Some x -> In (n + i, x) (enumerate_from n l).
Proof.
  revert n i. induction l as [|y l IH]; intros n i H; [destruct i; discriminate|].
  destruct i as [|i]; simpl in H.
  - inversion H; subst. left. f_equal. lia.
  - right. replace (n + S i) with (S n + i) by lia. apply IH, H.
Qed.

Lemma enumerate_from_same_reads (n : nat) (l1 l2 : list Entity) :
  map Entity_index l1 = map Entity_index l2 ->
  Forall2 (fun p1 p2 => fst p1 = fst p2 /\ Entity_index (snd p1) = Entity_index (snd p2))
          (enumerate_from n l1) (enumerate_from n l2).
Proof.
  revert n l2. induction l1 as [|x l1 IH]; intros n [|y l2] H; simpl in *; try discriminate.
  - constructor.
  - injection H as H1 H2. constructor; [split; [reflexivity|exact H1]|]. apply IH, H2.
Qed.

Lemma occupied_rel (R : ComponentStorage -> ComponentStorage -> Prop) (cs1 cs2 : Chunkset) :
  (forall c1 c2, R c1 c2 -> chunk_is_empty c1 = chunk_is_empty c2) ->
  Forall2 R (chunks cs1) (chunks cs2) -> Forall2 R (occupied cs1) (occupied cs2).
Proof.
  intros HR H. unfold occupied. apply Forall2_rev'.
  apply Forall2_rev' in H. induction H as [|c1 c2 l1 l2 Hc Hl IH]; simpl; [constructor|].
  rewrite (HR c1 c2 Hc). destruct (chunk_is_empty c2); [exact IH|]. constructor; assumption.
Qed.

Lemma iter_entities_same_reads (w1 w2 : World) :
  world_same_reads w1 w2 ->
  map Entity_index (iter_entities w1) = map Entity_index (iter_entities w2).
Proof.
  unfold world_same_reads, iter_entities. intros H. rewrite !map_flat_map'.
  induction H as [|a1 a2 l1 l2 [_ Ha] _ IH]; simpl; [reflexivity|]. rewrite IH. f_equal.
  clear IH. rewrite !map_flat_map'.
  induction Ha as [|cs1 cs2 k1 k2 Hcs _ IH]; simpl; [reflexivity|]. rewrite IH. f_equal.
  clear IH. rewrite !map_flat_map'.
  induction Hcs as [|c1 c2 m1 m2 [Hc _] _ IH]; simpl; [reflexivity|]. rewrite Hc, IH.
  reflexivity.
Qed.

Section ExtraHelpers.
Context {Σ Err : Type}.
Variable step : Σ -> event -> Σ + Err.

Lemma bind_Ok {A B} (m : @M Σ Err A) (k : A -> M B) st a st1 :
  m st = Ok a st1 -> (m ≫= k) st = k a st1.
Proof. intros H. unfold mbind, M_bind. rewrite H. reflexivity. Qed.

Lemma bind_Error {A B} (m : @M Σ Err A) (k : A -> M B) st e st1 :
  m st = Error e st1 -> (m ≫= k) st = Error e st1.
Proof. intros H. unfold mbind, M_bind. rewrite H. reflexivity. Qed.

Lemma bind_Panic {A B} (m : @M Σ Err A) (k : A -> M B) st p :
  m st = Panic p -> (m ≫= k) st = Panic p.
Proof. intros H. unfold mbind, M_bind. rewrite H. reflexivity. Qed.

Lemma for_each_ret {A} (l : list A) (f : A -> @M Σ Err unit) :
  (forall x, In x l -> f x = mret tt) -> for_each l f = mret tt.
Proof.
  induction l as [|x l IH]; intros H; simpl; [reflexivity|].
  rewrite H by (left; reflexivity). rewrite bind_ret_l.
  apply IH. intros y Hy. apply H. right. exact Hy.
Qed.

Lemma for_each_Ok {A} (l : list A) (f : A -> @M Σ Err unit) :
  (forall x, In x l -> forall st, exists st', f x st = Ok tt st') ->
  forall st, exists st', for_each l f st = Ok tt st'.
Proof.
  induction l as [|x l IH]; intros H st; simpl; [eexists; reflexivity|].
  destruct (H x (or_introl eq_refl) st) as [st1 E].
  rewrite (bind_Ok _ _ _ _ _ E). apply IH. intros y Hy. apply H. right. exact Hy.
Qed.

Lemma EntityComponents_reg_ext idx comps c reg1 reg2 :
  (forall t m, In (t, m) comps -> reg1 !! t = reg2 !! t) ->
  @EntityComponents_serialize Σ Err step idx comps c reg1 =
  EntityComponents_serialize step idx comps c reg2.
Proof.
  intros H. unfold EntityComponents_serialize.
  erewrite for_each_ext; [reflexivity|]. intros [t m] Hin. cbv beta iota.
  unfold get. rewrite (H t m Hin). reflexivity.
Qed.

Lemma EntityComponents_Ok_once idx comps c reg st a st' :
  @EntityComponents_serialize Σ Err step idx comps c reg st = Ok a st' ->
  forall t m col r, In (t, m) comps -> components c t = Some col -> reg !! t = Some r ->
    length (individual_comp_serialize_fn r col idx) = 1.
Proof.
  unfold EntityComponents_serialize. intros H t m col r Hin Hc Hr.
  apply seq_Ok_inv in H as [st1 [_ H]]. apply seq_Ok_inv in H as [st2 [H _]].
  destruct (for_each_Ok_inv _ _ _ _ _ H (t, m) Hin) as (s1 & s2 & Hb).
  cbv beta iota in Hb. rewrite Hc in Hb. unfold get in Hb. rewrite Hr in Hb.
  unfold serialize_element in Hb. apply seq_Ok_inv in Hb as [s3 [_ Hb]].
  rewrite EntityComponent_serialize_cases in Hb.
  destruct (individual_comp_serialize_fn r col idx) as [|v [|v' vs]];
    [discriminate|reflexivity|discriminate].
Qed.

Lemma scene_Ok_once (sc : Scene) (reg : gmap nat ComponentRegistration) st a0 st' :
  SerializableScene_serialize step (SerializableScene_new sc reg) st = Ok a0 st' ->
  callbacks_once_in (world sc) reg.
Proof.
  intros H a c t m col r slot (Ha & (cs & Hcs & Hc) & Hne) Hin Hcol Hr Hslot.
  unfold SerializableScene_serialize in H. cbn [scene component_registry] in H.
  apply seq_Ok_inv in H as [st1 [_ H]]. apply seq_Ok_inv in H as [st2 [H _]].
  destruct (for_each_Ok_inv _ _ _ _ _ H a Ha) as (s1 & s2 & H1).
  destruct (for_each_Ok_inv _ _ _ _ _ H1 cs Hcs) as (s3 & s4 & H2).
  assert (Hocc : In c (occupied cs)).
  { apply In_occupied; [exact Hc|]. destruct (chunk_is_empty c) eqn:E; [|reflexivity].
    apply chunk_is_empty_true in E. contradiction. }
  destruct (for_each_Ok_inv _ _ _ _ _ H2 c Hocc) as (s5 & s6 & H3).
  destruct (nth_error (cs_entities c) slot) as [e|] eqn:He.
  2:{ apply nth_error_None in He. lia. }
  assert (Hin0 : In (slot, e) (enumerate (cs_entities c)))
    by exact (enumerate_from_nth_error 0 _ _ _ He).
  destruct (for_each_Ok_inv _ _ _ _ _ H3 (slot, e) Hin0) as (s7 & s8 & H4).
  cbn beta iota in H4. unfold serialize_element, WorldEntity_serialize in H4.
  do 5 (apply seq_Ok_inv in H4 as [? [_ H4]]).
  apply seq_Ok_inv in H4. destruct H4 as [st9 [H4 _]].
  exact (EntityComponents_Ok_once _ _ _ _ _ _ _ H4 t m col r Hin Hcol Hr).
Qed.

Section Infallible.
Hypothesis step_total : forall s ev, exists s', step s ev = inl s'.

Lemma emit_infallible ev st : exists st', @emit Σ Err step ev st = Ok tt st'.
Proof.
  unfold emit. destruct (step_total (st_sink st) ev) as [s' E]. rewrite E.
  eexists; reflexivity.
Qed.

Lemma emit_all_infallible evs st : exists st', @emit_all Σ Err step evs st = Ok tt st'.
Proof.
  apply for_each_Ok. intros ev _ st0. apply emit_infallible.
Qed.

End Infallible.
End ExtraHelpers.

(** ** Registry *)

(** Registering [rs] in order ([register::<T1>()], [register::<T2>()],
    ...): [get t] returns the last registration of [rs] for [t], and what
    the registry held before when [rs] registers no [t]; from the default
    (empty) registry, [None]. *)
Theorem register_sequence_get (rs : list ComponentRegistration)
    (reg : gmap nat ComponentRegistration) (t : ComponentTypeId) :
  get (fold_left register rs reg) t =
    match hd_error (rev (List.filter (fun r => Nat.eqb (ty r) t) rs)) with
    | Some r => Some r
    | None => get reg t
    end /\
  get (fold_left register rs ComponentRegistry_default) t =
    hd_error (rev (List.filter (fun r => Nat.eqb (ty r) t) rs)).
Proof.
  assert (H : forall reg, get (fold_left register rs reg) t =
    match hd_error (rev (List.filter (fun r => Nat.eqb (ty r) t) rs)) with
    | Some r => Some r
    | None => get reg t
    end).
  { induction rs as [|r rs IH]; intros reg'; cbn [fold_left List.filter rev]; [reflexivity|].
    rewrite IH. unfold get, register.
    destruct (Nat.eqb_spec (ty r) t) as [<-|Hne].
    - rewrite lookup_insert_eq. cbn [rev].
      destruct (rev (List.filter _ rs)) as [|x l]; reflexivity.
    - rewrite lookup_insert_ne by congruence. reflexivity. }
  split; [apply H|]. rewrite H.
  destruct (hd_error _); reflexivity.
Qed.

(** Registrations of two different type ids commute. *)
Theorem register_commutes (reg : gmap nat ComponentRegistration)
    (r1 r2 : ComponentRegistration) :
  ty r1 <> ty r2 -> register (register reg r1) r2 = register (register reg r2) r1.
Proof. intros H. unfold register. apply insert_insert_ne. congruence. Qed.

Section Extras.
Context {Σ Err : Type}.
Variable step : Σ -> event -> Σ + Err.

(** ** The pass *)

(** A world with no live entity serializes to the empty sequence, with
    length hint 0, whatever its columns and the registry: no column or
    registration is looked up. *)
Theorem serialize_without_entities (sc : Scene) (reg : gmap nat ComponentRegistration) :
  iter_entities (world sc) = [] ->
  @SerializableScene_serialize Σ Err step (SerializableScene_new sc reg) =
  emit_all step [SerializeSeq (Some 0); SeqEnd].
Proof.
  intros H. unfold SerializableScene_serialize. cbn [scene component_registry].
  rewrite H. rewrite (for_each_ret (archetypes (world sc))).
  - rewrite bind_ret_l, emit_all_cons, emit_all_one. reflexivity.
  - intros a Ha. apply for_each_ret. intros cs Hcs. apply for_each_ret. intros c Hc.
    assert (Hn : cs_entities c = []).
    { unfold iter_entities in H. apply (flat_map_nil_inv _ _ a) in H; [|exact Ha].
      apply (flat_map_nil_inv _ _ cs) in H; [|exact Hcs].
      apply (flat_map_nil_inv _ _ c) in H; [exact H|]. apply occupied_incl, Hc. }
    cbv beta. rewrite Hn. reflexivity.
Qed.

(** The registry is read only at the types the world's archetypes
    declare: two registries that agree there give the same pass. *)
Theorem serialize_reads_registry_at_declared_types (sc : Scene)
    (reg1 reg2 : gmap nat ComponentRegistration) :
  (forall a t m, In a (archetypes (world sc)) -> In (t, m) (description_components a) ->
     reg1 !! t = reg2 !! t) ->
  @SerializableScene_serialize Σ Err step (SerializableScene_new sc reg1) =
  SerializableScene_serialize step (SerializableScene_new sc reg2).
Proof.
  intros H. unfold SerializableScene_serialize. cbn [scene component_registry].
  erewrite for_each_ext; [reflexivity|]. intros a Ha. cbv beta.
  erewrite for_each_ext; [reflexivity|]. intros cs _. cbv beta.
  erewrite for_each_ext; [reflexivity|]. intros c _. cbv beta.
  erewrite for_each_ext; [reflexivity|]. intros [i e] _. cbv beta iota.
  unfold WorldEntity_serialize. rewrite (EntityComponents_reg_ext step i _ c reg1 reg2).
  - reflexivity.
  - intros t m Hin. exact (H a t m Ha Hin).
Qed.

(** The pass reads an entity only through its index (never its
    generation) and a chunk's columns only for the types its archetype
    declares: two worlds that agree on these give the same outcome and
    the same sink state. *)
Theorem serialize_reads_index_and_declared_columns (sc1 sc2 : Scene)
    (reg : gmap nat ComponentRegistration) (st1 st2 : @Store Σ) :
  world_same_reads (world sc1) (world sc2) -> st_sink st1 = st_sink st2 ->
  outcome_view (@SerializableScene_serialize Σ Err step (SerializableScene_new sc1 reg) st1) =
  outcome_view (@SerializableScene_serialize Σ Err step (SerializableScene_new sc2 reg) st2).
Proof.
  intros Hw Hs.
  assert (Hsim : sim (SerializableScene_serialize step (SerializableScene_new sc1 reg))
                     (SerializableScene_serialize step (SerializableScene_new sc2 reg))).
  { unfold SerializableScene_serialize. cbn [scene component_registry].
    assert (Hlen : length (iter_entities (world sc1)) = length (iter_entities (world sc2))).
    { rewrite <- (length_map Entity_index (iter_entities (world sc1))),
              <- (length_map Entity_index (iter_entities (world sc2))).
      rewrite (iter_entities_same_reads _ _ Hw). reflexivity. }
    rewrite Hlen.
    apply sim_seq; [apply sim_emit|]. apply sim_seq; [|apply sim_emit].
    apply (sim_for_each2 archetype_same_reads); [exact Hw|]. intros a1 a2 [Hd Ha].
    rewrite <- Hd.
    apply (sim_for_each2 (fun cs1 cs2 =>
             Forall2 (chunk_same_reads (description_components a1)) (chunks cs1) (chunks cs2)));
      [exact Ha|].
    intros cs1 cs2 Hcs.
    apply (sim_for_each2 (chunk_same_reads (description_components a1))).
    { apply occupied_rel; [|exact Hcs]. intros c1 c2 [He _]. unfold chunk_is_empty.
      destruct (cs_entities c1), (cs_entities c2); simpl in He; congruence. }
    intros c1 c2 [He Hc].
    apply (sim_for_each2 (fun p1 p2 => fst p1 = fst p2 /\
                                       Entity_index (snd p1) = Entity_index (snd p2))).
    { apply enumerate_from_same_reads, He. }
    intros [i1 e1] [i2 e2] [Hi Hix]. simpl in Hi, Hix. subst i2.
    apply sim_seq; [apply sim_emit|].
    unfold WorldEntity_serialize, EntityComponents_serialize. rewrite Hix.
    repeat (apply sim_seq; [apply sim_emit|]).
    apply sim_seq; [|apply sim_emit]. apply sim_seq; [apply sim_emit|].
    apply sim_seq; [|apply sim_emit]. apply sim_for_each. intros [t m] Hin.
    rewrite (Hc t m Hin). destruct (components c2 t); [|apply sim_panic].
    destruct (get reg t); [|apply sim_panic].
    apply sim_seq; [apply sim_emit|apply sim_EntityComponent]. }
  apply Hsim. exact Hs.
Qed.

(** A sink that rejects the opening [serialize_seq] gets its error back
    at once, with the store unchanged, whatever the world and the
    registry hold (even a missing column or registration). *)
Theorem serialize_sink_rejects_header (st : @Store Σ) (e : Err) :
  step (st_sink st) (SerializeSeq (Some (length (iter_entities (world (st_scene st)))))) = inr e ->
  @serialize_pass Σ Err step st = Error e st.
Proof.
  intros H. unfold serialize_pass, SerializableScene_serialize. apply bind_Error.
  cbn [scene component_registry]. unfold emit. rewrite H. reflexivity.
Qed.

Section Infallible.
Hypothesis step_total : forall s ev, exists s', step s ev = inl s'.

(** With a sink that never fails, the components of an entity are
    serialized in declared order until the first type whose column or
    registration is missing; the pass panics there, at the column
    [unwrap] when the column is missing (even if the type is also
    unregistered), else at the registry [unwrap]. *)
Theorem EntityComponents_first_fault (idx : nat)
    (pre : list (ComponentTypeId * ComponentMeta)) (t : ComponentTypeId) (m : ComponentMeta)
    (post : list (ComponentTypeId * ComponentMeta)) (c : ComponentStorage)
    (reg : gmap nat ComponentRegistration) (st : @Store Σ) :
  slot_ok reg pre c idx ->
  components c t = None \/ reg !! t = None ->
  @EntityComponents_serialize Σ Err step idx (pre ++ (t, m) :: post) c reg st =
    Panic (match components c t with None => ColumnUnwrap | Some _ => RegistrationUnwrap end).
Proof.
  intros Hpre Hfault. unfold EntityComponents_serialize.
  destruct (emit_infallible step step_total
              (SerializeSeq (Some (length (pre ++ (t, m) :: post)))) st) as [st1 E1].
  rewrite (bind_Ok _ _ _ _ _ E1). apply bind_Panic. rewrite for_each_app.
  match goal with |- ((for_each pre ?f ;; _) _) = _ => set (F := f) end.
  destruct (for_each_Ok pre F) with (st := st1) as [st2 E2].
  { intros [t' m'] Hin st0. destruct (Hpre t' m' Hin) as (col & r & Hc & Hr & Hlen).
    unfold F. cbv beta iota. rewrite Hc. unfold get. rewrite Hr. cbv beta iota.
    unfold serialize_element.
    destruct (emit_infallible step step_total SerializeElement st0) as [st3 E3].
    rewrite (bind_Ok _ _ _ _ _ E3). rewrite EntityComponent_serialize_cases.
    destruct (individual_comp_serialize_fn r col idx) as [|v [|v' vs]];
      simpl in Hlen; try discriminate.
    apply emit_infallible, step_total. }
  rewrite (bind_Ok _ _ _ _ _ E2). cbn [for_each]. apply bind_Panic.
  unfold F. cbv beta iota.
  destruct Hfault as [Hc|Hr].
  - rewrite Hc. reflexivity.
  - destruct (components c t); [|reflexivity]. unfold get. rewrite Hr. reflexivity.
Qed.

(** With a sink that never fails, a pass succeeds exactly when every live
    chunk has a column for each type its archetype declares, every such
    type is registered, and each registration calls back once at every
    occupied slot. *)
Theorem serialize_succeeds_iff (st : @Store Σ) :
  (exists st', @serialize_pass Σ Err step st = Ok tt st') <->
  columns_complete (world (st_scene st)) /\
  registry_covers (world (st_scene st)) (st_registry st) /\
  callbacks_once_in (world (st_scene st)) (st_registry st).
Proof.
  split.
  - intros [st' H]. unfold serialize_pass in H.
    pose proof (scene_Ok_inv step _ _ _ _ _ H) as Hinv.
    split; [|split].
    + intros a c t m Hl Hin. apply (Hinv a c t m Hl Hin).
    + intros a c t m Hl Hin. apply (Hinv a c t m Hl Hin).
    + exact (scene_Ok_once step _ _ _ _ _ H).
  - intros (H1 & H2 & H3). unfold serialize_pass.
    rewrite (scene_events step) by assumption.
    apply emit_all_infallible, step_total.
Qed.

End Infallible.
End Extras.

(** ** Concrete instances of the further properties *)

Lemma example_world_regenerated_same_reads :
  world_same_reads example_world example_world_regenerated.
Proof.
  unfold world_same_reads. cbn. constructor; [|constructor; [|constructor]].
  - split; [reflexivity|]. constructor; [|constructor]. cbn.
    constructor; [|constructor; [|constructor]];
      (split; [reflexivity|intros t m _; reflexivity]).
  - split; [reflexivity|]. constructor; [|constructor]. cbn.
    constructor; [|constructor]. split; [reflexivity|].
    intros t m Hin. cbn in Hin. destruct Hin as [H|[H|[]]]; injection H as <- <-; reflexivity.
Qed.

Lemma record_step_total : forall s ev, exists s', record_step s ev = inl s'.
Proof. intros s ev. eexists. reflexivity. Qed.

Lemma register_commutes_witness :
  ty (ComponentRegistration_of Position nth_value) <>
    ty (ComponentRegistration_of Velocity nth_value) /\
  register (register ComponentRegistry_default (ComponentRegistration_of Position nth_value))
           (ComponentRegistration_of Velocity nth_value) =
  register (register ComponentRegistry_default (ComponentRegistration_of Velocity nth_value))
           (ComponentRegistration_of Position nth_value).
Proof.
  split; [cbv; lia|].
  apply register_commutes. cbv; lia.
Defined.

Lemma serialize_without_entities_witness :
  iter_entities world_without_entities = [] /\
  @SerializableScene_serialize (list event) unit record_step
    (SerializableScene_new (mk_scene world_without_entities) ComponentRegistry_default) =
  emit_all record_step [SerializeSeq (Some 0); SeqEnd].
Proof.
  split; [reflexivity|].
  apply serialize_without_entities. reflexivity.
Defined.

Lemma serialize_reads_registry_at_declared_types_witness :
  (forall a t m, In a (archetypes example_world) -> In (t, m) (description_components a) ->
     example_registry !! t =
     register example_registry (ComponentRegistration_of 5 nth_value) !! t) /\
  @SerializableScene_serialize (list event) unit record_step
    (SerializableScene_new (mk_scene example_world) example_registry) =
  SerializableScene_serialize record_step
    (SerializableScene_new (mk_scene example_world)
       (register example_registry (ComponentRegistration_of 5 nth_value))).
Proof.
  assert (H : forall a t m, In a (archetypes example_world) ->
            In (t, m) (description_components a) ->
            example_registry !! t =
            register example_registry (ComponentRegistration_of 5 nth_value) !! t).
  { intros a t m Ha Hin. vm_compute in Ha.
    destruct Ha as [<-|[<-|[]]]; vm_compute in Hin;
      repeat (destruct Hin as [Hin|Hin]; [injection Hin as <- <-; vm_compute; reflexivity|]);
      destruct Hin. }
  split; [exact H|]. apply (serialize_reads_registry_at_declared_types record_step), H.
Defined.

Lemma serialize_reads_index_and_declared_columns_witness :
  world_same_reads example_world example_world_regenerated /\
  st_sink example_store = st_sink (mk_store (mk_scene example_world_regenerated) example_registry []) /\
  outcome_view (@SerializableScene_serialize (list event) unit record_step
                  (SerializableScene_new (mk_scene example_world) example_registry) example_store) =
  outcome_view (@SerializableScene_serialize (list event) unit record_step
                  (SerializableScene_new (mk_scene example_world_regenerated) example_registry)
                  (mk_store (mk_scene example_world_regenerated) example_registry [])).
Proof.
  split; [exact example_world_regenerated_same_reads|]. split; [reflexivity|].
  apply serialize_reads_index_and_declared_columns;
    [exact example_world_regenerated_same_reads|reflexivity].
Defined.

Lemma serialize_sink_rejects_header_witness :
  failing_step (st_sink store_missing_column)
    (SerializeSeq (Some (length (iter_entities (world (st_scene store_missing_column)))))) =
    inr "io error"%string /\
  @serialize_pass (list event) string failing_step store_missing_column =
    Error "io error"%string store_missing_column.
Proof.
  split; [reflexivity|]. apply serialize_sink_rejects_header. reflexivity.
Defined.

Lemma EntityComponents_first_fault_witness :
  (forall s ev, exists s', record_step s ev = inl s') /\
  slot_ok registry_without_velocity [(Position, 8)] chunk_no_velocity 0 /\
  (components chunk_no_velocity Velocity = None \/ registry_without_velocity !! Velocity = None) /\
  @EntityComponents_serialize (list event) unit record_step 0
     [(Position, 8); (Velocity, 8)] chunk_no_velocity registry_without_velocity example_store =
    Panic ColumnUnwrap.
Proof.
  assert (Hok : slot_ok registry_without_velocity [(Position, 8)] chunk_no_velocity 0).
  { intros t m [H|[]]. injection H as <- <-.
    exists [20], (ComponentRegistration_of Position nth_value).
    split; [reflexivity|]. split; [vm_compute; reflexivity|reflexivity]. }
  split; [exact record_step_total|]. split; [exact Hok|]. split; [left; reflexivity|].
  exact (EntityComponents_first_fault record_step record_step_total 0 [(Position, 8)]
           Velocity 8 [] chunk_no_velocity registry_without_velocity example_store
           Hok (or_introl eq_refl)).
Defined.

Lemma serialize_succeeds_iff_witness :
  (forall s ev, exists s', record_step s ev = inl s') /\
  ((exists st', @serialize_pass (list event) unit record_step example_store = Ok tt st') <->
   columns_complete example_world /\ registry_covers example_world example_registry /\
   callbacks_once_in example_world example_registry).
Proof.
  split; [exact record_step_total|].
  exact (serialize_succeeds_iff record_step record_step_total example_store).
Defined.

(** * The calls made before a panic *)

Section Trace.
Context {Σ Err : Type}.
Variable step : Σ -> event -> Σ + Err.

Lemma runs_ret : runs step (mret tt) [] None.
Proof. unfold runs. cbn [finish]. rewrite bind_ret_r. reflexivity. Qed.

Lemma runs_emit ev : runs step (emit step ev) [ev] None.
Proof. unfold runs. cbn [finish]. rewrite bind_ret_r, emit_all_one. reflexivity. Qed.

Lemma runs_emit_all evs : runs step (emit_all step evs) evs None.
Proof. unfold runs. cbn [finish]. rewrite bind_ret_r. reflexivity. Qed.

Lemma runs_panic p : runs step (panic p) [] (Some p).
Proof. unfold runs. cbn [finish]. extensionality st. reflexivity. Qed.

Lemma runs_seq m k e1 f1 e2 f2 :
  runs step m e1 f1 -> runs step k e2 f2 ->
  runs step (m ;; k) (match f1 with None => e1 ++ e2 | Some _ => e1 end)
                     (match f1 with None => f2 | Some p => Some p end).
Proof.
  unfold runs. intros -> ->. destruct f1 as [p|]; cbn [finish].
  - extensionality st. unfold mbind, M_bind. destruct (emit_all step e1 st); reflexivity.
  - rewrite bind_ret_r, emit_all_app, bind_assoc. reflexivity.
Qed.

Lemma runs_ok_seq m k e1 e2 e f :
  runs step m e1 None -> runs step k e2 f -> e1 ++ e2 = e -> runs step (m ;; k) e f.
Proof. intros H1 H2 <-. exact (runs_seq m k e1 None e2 f H1 H2). Qed.

Lemma runs_emit_seq ev k e f :
  runs step k e f -> runs step (emit step ev ;; k) (ev :: e) f.
Proof. intros H. exact (runs_seq _ _ [ev] None e f (runs_emit ev) H). Qed.

Lemma runs_seq_stop m k e p :
  runs step m e (Some p) -> runs step (m ;; k) e (Some p).
Proof.
  unfold runs. intros ->. cbn [finish]. extensionality st. unfold mbind, M_bind.
  destruct (emit_all step e st); reflexivity.
Qed.

(** What a traced computation does with a given sink: the sink's first
    error on the calls, or the end [fin] once it has accepted them all. *)
Lemma runs_outcome m evs fin st :
  runs step m evs fin ->
  (forall s, feed step (st_sink st) evs = inl s ->
     m st = finish fin (mk_store (st_scene st) (st_registry st) s)) /\
  (forall e, feed step (st_sink st) evs = inr e -> exists st', m st = Error e st').
Proof.
  intros ->. destruct (emit_all_feed step evs st) as [H1 H2]. split.
  - intros s Hs. exact (bind_Ok _ _ _ _ _ (H1 s Hs)).
  - intros e He. destruct (H2 e He) as [st' E]. exists st'. exact (bind_Error _ _ _ _ _ E).
Qed.

Lemma for_each_flat_map {A B} (g : A -> list B) (l : list A) (f : B -> @M Σ Err unit) :
  for_each (flat_map g l) f = for_each l (fun x => for_each (g x) f).
Proof. induction l as [|x l IH]; simpl; [reflexivity|]. rewrite for_each_app, IH. reflexivity. Qed.

Lemma for_each_map {A B} (h : A -> B) (l : list A) (f : B -> @M Σ Err unit) :
  for_each (map h l) f = for_each l (fun x => f (h x)).
Proof. induction l as [|x l IH]; simpl; [reflexivity|]. rewrite IH. reflexivity. Qed.

(** The nested loops of [SerializableScene::serialize] visit the slots of
    [scene_entries], in order. *)
Lemma scene_serialize_entries (sc : Scene) (reg : gmap nat ComponentRegistration) :
  @SerializableScene_serialize Σ Err step (SerializableScene_new sc reg) =
  (emit step (SerializeSeq (Some (length (iter_entities (world sc))))) ;;
   for_each (scene_entries (world sc)) (fun x =>
     serialize_element step
       (WorldEntity_serialize step (entry_components x) reg (entry_storage x)
          (entry_entity x) (entry_slot x))) ;;
   emit step SeqEnd).
Proof.
  unfold SerializableScene_serialize. cbn [scene component_registry].
  f_equal. apply functional_extensionality. intros _. f_equal.
  unfold scene_entries. rewrite for_each_flat_map. apply for_each_ext. intros a _.
  unfold archetype_entries. rewrite for_each_flat_map. apply for_each_ext. intros cs _.
  rewrite for_each_flat_map. rewrite for_each_occupied.
  2:{ intros c Hc. apply chunk_is_empty_true in Hc. cbv beta. rewrite Hc. reflexivity. }
  apply for_each_ext. intros c _. unfold chunk_entries. rewrite for_each_map.
  apply for_each_ext. intros [i e] _. reflexivity.
Qed.

(** [EntityComponents::serialize] writes the components of [pre] and stops
    at the first type whose column or registration is missing. *)
Lemma EntityComponents_first_fault_runs idx pre t m post c reg :
  slot_ok reg pre c idx ->
  components c t = None \/ reg !! t = None ->
  runs step (EntityComponents_serialize step idx (pre ++ (t, m) :: post) c reg)
    (SerializeSeq (Some (length (pre ++ (t, m) :: post))) ::
     flat_map (fun v => SerializeElement :: encode v) (component_values reg c idx pre))
    (Some (match components c t with None => ColumnUnwrap | Some _ => RegistrationUnwrap end)).
Proof.
  intros Hpre Hfault. unfold EntityComponents_serialize.
  apply runs_emit_seq. apply runs_seq_stop. rewrite for_each_app.
  apply (runs_ok_seq _ _
           (flat_map (fun v => SerializeElement :: encode v) (component_values reg c idx pre)) []);
    [|cbn [for_each]; apply runs_seq_stop|apply app_nil_r].
  - unfold component_values. rewrite flat_map_of_flat_map.
    erewrite for_each_emit_all; [apply runs_emit_all|].
    intros [t' m'] Hin. destruct (Hpre t' m' Hin) as (col & r & Hc & Hr & Hlen).
    cbv beta iota. unfold component_value. simpl fst. unfold get. rewrite Hc, Hr.
    destruct (individual_comp_serialize_fn r col idx) as [|v [|v' vs]] eqn:Hf;
      simpl in Hlen; try discriminate.
    unfold serialize_element. rewrite (EntityComponent_serialize_single step idx col r v Hf).
    simpl. rewrite emit_all_cons, emit_all_one. reflexivity.
  - cbv beta iota. destruct Hfault as [Hc|Hr].
    + rewrite Hc. apply runs_panic.
    + destruct (components c t); [|apply runs_panic]. unfold get. rewrite Hr. apply runs_panic.
Qed.

(** The pass writes the output of the well-formed slots [xs1], then the
    slot [x] up to the component after [pre], and stops there when that
    component's column or registration is missing. *)
Lemma scene_first_fault_runs (sc : Scene) (reg : gmap nat ComponentRegistration)
    xs1 x xs2 pre t m post :
  scene_entries (world sc) = xs1 ++ x :: xs2 ->
  Forall (fun y => slot_ok reg (entry_components y) (entry_storage y) (entry_slot y)) xs1 ->
  entry_components x = pre ++ (t, m) :: post ->
  slot_ok reg pre (entry_storage x) (entry_slot x) ->
  components (entry_storage x) t = None \/ reg !! t = None ->
  runs step (SerializableScene_serialize step (SerializableScene_new sc reg))
    (output_prefix (length (iter_entities (world sc))) reg xs1 x pre)
    (Some (match components (entry_storage x) t with
           | None => ColumnUnwrap
           | Some _ => RegistrationUnwrap
           end)).
Proof.
  intros Hw Hxs1 Hx Hpre Hfault.
  rewrite scene_serialize_entries, Hw. unfold output_prefix.
  rewrite for_each_app. cbn [for_each]. cbv beta. rewrite Hx.
  apply runs_emit_seq. apply runs_seq_stop.
  eapply (runs_ok_seq _ _
            (flat_map (fun y => SerializeElement :: encode (entity_record reg y)) xs1));
    [| |reflexivity].
  - erewrite for_each_emit_all; [apply runs_emit_all|].
    intros y Hy. rewrite List.Forall_forall in Hxs1.
    unfold serialize_element. rewrite emit_all_cons.
    rewrite WorldEntity_events by (apply Hxs1; exact Hy).
    destruct y; reflexivity.
  - apply runs_seq_stop. unfold serialize_element, WorldEntity_serialize.
    do 5 apply runs_emit_seq. apply runs_seq_stop.
    apply EntityComponents_first_fault_runs; assumption.
Qed.

End Trace.

Lemma traced_emit ev : traced (fun Σ Err step => emit step ev).
Proof. exists [ev], None. intros Σ Err step. apply runs_emit. Qed.

Lemma traced_panic p : traced (fun Σ Err step => @panic Σ Err unit p).
Proof. exists [], (Some p). intros Σ Err step. apply runs_panic. Qed.

Lemma traced_seq (m k : forall Σ Err : Type, (Σ -> event -> Σ + Err) -> @M Σ Err unit) :
  traced m -> traced k -> traced (fun Σ Err step => m Σ Err step ;; k Σ Err step).
Proof.
  intros (e1 & f1 & H1) (e2 & f2 & H2).
  exists (match f1 with None => e1 ++ e2 | Some _ => e1 end),
         (match f1 with None => f2 | Some p => Some p end).
  intros Σ Err step. apply runs_seq; [apply H1|apply H2].
Qed.

Lemma traced_for_each {A} (l : list A)
    (f : forall Σ Err : Type, (Σ -> event -> Σ + Err) -> A -> @M Σ Err unit) :
  (forall x, In x l -> traced (fun Σ Err step => f Σ Err step x)) ->
  traced (fun Σ Err step => for_each l (f Σ Err step)).
Proof.
  induction l as [|x l IH]; intros H.
  - exists [], None. intros Σ Err step. apply runs_ret.
  - exact (traced_seq (fun Σ Err step => f Σ Err step x)
             (fun Σ Err step => for_each l (f Σ Err step))
             (H x (or_introl eq_refl))
             (IH (fun y Hy => H y (or_intror Hy)))).
Qed.

Lemma traced_EntityComponent idx col r :
  traced (fun Σ Err step => @EntityComponent_serialize Σ Err step idx col r).
Proof.
  destruct (individual_comp_serialize_fn r col idx) as [|v [|v' vs]] eqn:Hf.
  - exists [], (Some ResultUnwrap). intros Σ Err step. unfold runs. extensionality st.
    rewrite EntityComponent_serialize_cases, Hf. reflexivity.
  - exists [SerializeComponent v], None. intros Σ Err step.
    rewrite (EntityComponent_serialize_single step idx col r v Hf). apply runs_emit.
  - exists [], (Some TakeUnwrap). intros Σ Err step. unfold runs. extensionality st.
    rewrite EntityComponent_serialize_cases, Hf. reflexivity.
Qed.

Lemma traced_EntityComponents idx comps c reg :
  traced (fun Σ Err step => @EntityComponents_serialize Σ Err step idx comps c reg).
Proof.
  unfold EntityComponents_serialize.
  apply traced_seq; [apply traced_emit|]. apply traced_seq; [|apply traced_emit].
  apply traced_for_each. intros [t m] _. cbv beta iota.
  destruct (components c t) as [col|]; [|apply traced_panic].
  destruct (get reg t) as [r|]; [|apply traced_panic].
  unfold serialize_element.
  apply traced_seq; [apply traced_emit|apply traced_EntityComponent].
Qed.

Lemma traced_WorldEntity comps reg c e idx :
  traced (fun Σ Err step => @WorldEntity_serialize Σ Err step comps reg c e idx).
Proof.
  unfold WorldEntity_serialize.
  repeat (apply traced_seq; [apply traced_emit|]).
  apply traced_seq; [apply traced_EntityComponents|apply traced_emit].
Qed.

(** Every pass is traced: the sink only sees a fixed sequence of calls
    and cannot change the way the pass ends, other than by an error. *)
Lemma traced_scene (sc : Scene) (reg : gmap nat ComponentRegistration) :
  traced (fun Σ Err step => @SerializableScene_serialize Σ Err step (SerializableScene_new sc reg)).
Proof.
  unfold SerializableScene_serialize. cbn [scene component_registry].
  apply traced_seq; [apply traced_emit|]. apply traced_seq; [|apply traced_emit].
  apply traced_for_each. intros a _. cbv beta.
  apply traced_for_each. intros cs _. cbv beta.
  apply traced_for_each. intros c _. cbv beta.
  apply traced_for_each. intros [i e] _. cbv beta iota.
  unfold serialize_element.
  apply traced_seq; [apply traced_emit|apply traced_WorldEntity].
Qed.

Lemma feed_fail_after (n : nat) (evs : list event) :
  feed fail_after n evs =
  match nth_error evs n with
  | Some ev => inr ev
  | None => inl (n - length evs)
  end.
Proof.
  revert n. induction evs as [|ev evs IH]; intros n.
  - destruct n; reflexivity.
  - destruct n as [|r]; [reflexivity|]. simpl. apply IH.
Qed.

(** The calls and the end of a traced computation are unique. *)
Lemma runs_unique (m : forall Σ Err : Type, (Σ -> event -> Σ + Err) -> @M Σ Err unit)
    e1 f1 e2 f2 :
  (forall Σ Err (step : Σ -> event -> Σ + Err), runs step (m Σ Err step) e1 f1) ->
  (forall Σ Err (step : Σ -> event -> Σ + Err), runs step (m Σ Err step) e2 f2) ->
  e1 = e2 /\ f1 = f2.
Proof.
  intros H1 H2.
  assert (Hn : forall n, nth_error e1 n = nth_error e2 n /\
    (nth_error e1 n = None ->
       exists s1 s2, finish f1 s1 = m nat event fail_after (mk_store (mk_scene (mk_world [])) ∅ n) /\
                     finish f2 s2 = m nat event fail_after (mk_store (mk_scene (mk_world [])) ∅ n))).
  { intros n. set (st := mk_store (mk_scene (mk_world [])) ∅ n).
    destruct (runs_outcome fail_after _ _ _ st (H1 nat event fail_after)) as [A1 B1].
    destruct (runs_outcome fail_after _ _ _ st (H2 nat event fail_after)) as [A2 B2].
    unfold st in *; cbn [st_sink] in *. rewrite !feed_fail_after in *.
    destruct (nth_error e1 n) as [ev1|] eqn:E1, (nth_error e2 n) as [ev2|] eqn:E2.
    - destruct (B1 ev1 eq_refl) as [s1 F1], (B2 ev2 eq_refl) as [s2 F2].
      rewrite F1 in F2. injection F2 as ->. split; [reflexivity|discriminate].
    - destruct (B1 ev1 eq_refl) as [s1 F1]. rewrite (A2 _ eq_refl) in F1.
      destruct f2; discriminate.
    - destruct (B2 ev2 eq_refl) as [s2 F2]. rewrite (A1 _ eq_refl) in F2.
      destruct f1; discriminate.
    - split; [reflexivity|]. intros _. do 2 eexists. split; symmetry; [apply A1|apply A2];
        reflexivity. }
  split.
  - apply nth_error_ext. intros n. apply Hn.
  - assert (E : nth_error e1 (length e1) = None) by (apply nth_error_None; lia).
    destruct (proj2 (Hn (length e1)) E) as (s1 & s2 & F1 & F2). rewrite <- F2 in F1.
    destruct f1, f2; unfold finish, panic, mret, M_ret in F1; congruence.
Qed.

(** * Unregistered components and missing columns *)

(** C4 (unregistered component).  If a live chunk's archetype declares a
    type [t] that the registry does not hold, the pass never succeeds:
    it makes a fixed sequence [evs] of serializer calls, the same for
    every sink, and then panics at a site [p]; a sink that fails on one
    of these calls has its first error returned instead of the panic.
    When the traversal reaches [t] with the slots before it well-formed
    and the column of [t] present, the calls are the output up to that
    component and the panic is the registry's [get(..).unwrap()]. *)
Theorem unregistered_component_never_succeeds (sc : Scene)
    (reg : gmap nat ComponentRegistration) (a : ArchetypeData) (c : ComponentStorage)
    (t : ComponentTypeId) (m : ComponentMeta) :
  live_chunk (world sc) a c -> In (t, m) (description_components a) -> reg !! t = None ->
  exists (evs : list event) (p : panic_site),
    (forall Σ Err (step : Σ -> event -> Σ + Err) (st : @Store Σ),
       (forall r st', SerializableScene_serialize step (SerializableScene_new sc reg) st <> Ok r st') /\
       (forall s, feed step (st_sink st) evs = inl s ->
          SerializableScene_serialize step (SerializableScene_new sc reg) st = Panic p) /\
       (forall e, feed step (st_sink st) evs = inr e ->
          exists st', SerializableScene_serialize step (SerializableScene_new sc reg) st = Error e st')) /\
    (forall xs1 x xs2 pre m' post,
       scene_entries (world sc) = xs1 ++ x :: xs2 ->
       Forall (fun y => slot_ok reg (entry_components y) (entry_storage y) (entry_slot y)) xs1 ->
       entry_components x = pre ++ (t, m') :: post ->
       slot_ok reg pre (entry_storage x) (entry_slot x) ->
       is_Some (components (entry_storage x) t) ->
       evs = output_prefix (length (iter_entities (world sc))) reg xs1 x pre /\
       p = RegistrationUnwrap).
Proof.
  intros Hlive Hin Hreg.
  assert (Hnot_ok : forall Σ Err (step : Σ -> event -> Σ + Err) st r st',
            SerializableScene_serialize step (SerializableScene_new sc reg) st <> Ok r st').
  { intros Σ Err step st r st' H.
    destruct (scene_Ok_inv step sc reg st r st' H a c t m Hlive Hin) as [_ [r' Hr']].
    congruence. }
  destruct (traced_scene sc reg) as (evs & fin & Hrun).
  destruct fin as [p|].
  2:{ exfalso. set (st0 := mk_store sc reg (@nil event)).
      destruct (emit_all_infallible record_step record_step_total evs st0) as [st' E].
      apply (Hnot_ok (list event) unit record_step st0 tt st').
      rewrite (Hrun (list event) unit record_step). cbn [finish]. rewrite bind_ret_r.
      exact E. }
  exists evs, p. split.
  - intros Σ Err step st. split; [apply Hnot_ok|].
    destruct (runs_outcome step _ evs (Some p) st (Hrun Σ Err step)) as [H1 H2].
    split; [|exact H2]. intros s Hs. rewrite (H1 s Hs). reflexivity.
  - intros xs1 x xs2 pre m' post Hw Hxs1 Hx Hpre [col Hcol].
    assert (Hf : forall Σ Err (step : Σ -> event -> Σ + Err),
              runs step (SerializableScene_serialize step (SerializableScene_new sc reg))
                (output_prefix (length (iter_entities (world sc))) reg xs1 x pre)
                (Some RegistrationUnwrap)).
    { intros Σ Err step.
      pose proof (scene_first_fault_runs step sc reg xs1 x xs2 pre t m' post
                    Hw Hxs1 Hx Hpre (or_intror Hreg)) as H.
      rewrite Hcol in H. exact H. }
    destruct (runs_unique _ _ _ _ _ Hrun Hf) as [-> E]. injection E as ->.
    split; reflexivity.
Qed.

(** C9 (missing column).  When the traversal reaches a declared type [t]
    of a slot [x] whose chunk has no column for it (the slots before [x]
    and the components of [x] before [t] well-formed), the pass makes the
    calls of the output up to that component and, if the sink accepts
    them, panics at the column lookup's [unwrap]; if the sink fails on
    one of them the lookup is never run and that error is returned.  A
    live chunk missing a declared column never lets the pass succeed.
    Conversely, when every live chunk holds a column for each type its
    archetype declares, the pass never panics at the column [unwrap]. *)
Theorem missing_column_fatal (sc : Scene) (reg : gmap nat ComponentRegistration) :
  (forall xs1 x xs2 pre t m post,
     scene_entries (world sc) = xs1 ++ x :: xs2 ->
     Forall (fun y => slot_ok reg (entry_components y) (entry_storage y) (entry_slot y)) xs1 ->
     entry_components x = pre ++ (t, m) :: post ->
     slot_ok reg pre (entry_storage x) (entry_slot x) ->
     components (entry_storage x) t = None ->
     forall Σ Err (step : Σ -> event -> Σ + Err) (st : @Store Σ),
       (forall s, feed step (st_sink st)
                    (output_prefix (length (iter_entities (world sc))) reg xs1 x pre) = inl s ->
          SerializableScene_serialize step (SerializableScene_new sc reg) st = Panic ColumnUnwrap) /\
       (forall e, feed step (st_sink st)
                    (output_prefix (length (iter_entities (world sc))) reg xs1 x pre) = inr e ->
          exists st', SerializableScene_serialize step (SerializableScene_new sc reg) st = Error e st')) /\
  (forall a c t m, live_chunk (world sc) a c -> In (t, m) (description_components a) ->
     components c t = None ->
     forall Σ Err (step : Σ -> event -> Σ + Err) (st : @Store Σ) r st',
       SerializableScene_serialize step (SerializableScene_new sc reg) st <> Ok r st') /\
  (columns_complete (world sc) ->
     forall Σ Err (step : Σ -> event -> Σ + Err) (st : @Store Σ),
       SerializableScene_serialize step (SerializableScene_new sc reg) st <> Panic ColumnUnwrap).
Proof.
  split; [|split].
  - intros xs1 x xs2 pre t m post Hw Hxs1 Hx Hpre Hc Σ Err step st.
    pose proof (scene_first_fault_runs step sc reg xs1 x xs2 pre t m post
                  Hw Hxs1 Hx Hpre (or_introl Hc)) as Hr.
    rewrite Hc in Hr.
    destruct (runs_outcome step _ _ _ st Hr) as [H1 H2].
    split; [|exact H2]. intros s Hs. rewrite (H1 s Hs). reflexivity.
  - intros a c t m Hl Hin Hc Σ Err step st r st' H.
    destruct (scene_Ok_inv step sc reg st r st' H a c t m Hl Hin) as [[col Hcol] _].
    congruence.
  - intros Hcc Σ Err step st Hp.
    assert (Hemit : forall ev, good (fun _ _ : @Store Σ => True) (fun _ : Err => True)
                                    (fun p => p <> ColumnUnwrap) (emit step ev)).
    { intros ev st0. unfold good_outcome, emit.
      destruct (step (st_sink st0) ev); simpl; tauto. }
    pose proof (good_scene step (fun _ _ => True) (fun _ => I) (fun _ _ _ _ _ => I)
                  (fun _ => True) (fun p => p <> ColumnUnwrap) Hemit sc reg
                  ltac:(discriminate) ltac:(discriminate) ltac:(discriminate)) as Hgood.
    refine (_ (Hgood _ st)).
    + rewrite Hp. simpl. tauto.
    + intros a c t m Hl Hin Hc. destruct (Hcc a c t m Hl Hin) as [col Hcol]. congruence.
Qed.

(** ** Witnesses *)

Lemma unregistered_component_never_succeeds_witness :
  live_chunk example_world archetype_B chunk_B /\
  In (Velocity, 8) (description_components archetype_B) /\
  registry_without_velocity !! Velocity = None /\
  exists (evs : list event) (p : panic_site),
    (forall Σ Err (step : Σ -> event -> Σ + Err) (st : @Store Σ),
       (forall r st', SerializableScene_serialize step
                        (SerializableScene_new (mk_scene example_world) registry_without_velocity) st
                      <> Ok r st') /\
       (forall s, feed step (st_sink st) evs = inl s ->
          SerializableScene_serialize step
            (SerializableScene_new (mk_scene example_world) registry_without_velocity) st = Panic p) /\
       (forall e, feed step (st_sink st) evs = inr e ->
          exists st', SerializableScene_serialize step
            (SerializableScene_new (mk_scene example_world) registry_without_velocity) st = Error e st')) /\
    (forall xs1 x xs2 pre m' post,
       scene_entries example_world = xs1 ++ x :: xs2 ->
       Forall (fun y => slot_ok registry_without_velocity (entry_components y) (entry_storage y)
                          (entry_slot y)) xs1 ->
       entry_components x = pre ++ (Velocity, m') :: post ->
       slot_ok registry_without_velocity pre (entry_storage x) (entry_slot x) ->
       is_Some (components (entry_storage x) Velocity) ->
       evs = output_prefix (length (iter_entities example_world)) registry_without_velocity xs1 x pre /\
       p = RegistrationUnwrap).
Proof.
  split; [exact live_chunk_B|]. split; [right; left; reflexivity|].
  split; [vm_compute; reflexivity|].
  exact (unregistered_component_never_succeeds (mk_scene example_world) registry_without_velocity
           archetype_B chunk_B Velocity 8 live_chunk_B (or_intror (or_introl eq_refl))
           ltac:(vm_compute; reflexivity)).
Defined.

Lemma missing_column_fatal_witness :
  scene_entries world_missing_column = [] ++ missing_column_entry :: [] /\
  Forall (fun y => slot_ok example_registry (entry_components y) (entry_storage y) (entry_slot y)) [] /\
  entry_components missing_column_entry = [(Position, 8)] ++ (Velocity, 8) :: [] /\
  slot_ok example_registry [(Position, 8)] (entry_storage missing_column_entry)
    (entry_slot missing_column_entry) /\
  components (entry_storage missing_column_entry) Velocity = None /\
  (forall s, feed record_step (st_sink store_missing_column)
               (output_prefix (length (iter_entities world_missing_column)) example_registry []
                  missing_column_entry [(Position, 8)]) = inl s ->
     SerializableScene_serialize record_step
       (SerializableScene_new (mk_scene world_missing_column) example_registry)
       store_missing_column = Panic ColumnUnwrap) /\
  (forall e, feed failing_step (st_sink store_missing_column)
               (output_prefix (length (iter_entities world_missing_column)) example_registry []
                  missing_column_entry [(Position, 8)]) = inr e ->
     exists st', SerializableScene_serialize failing_step
       (SerializableScene_new (mk_scene world_missing_column) example_registry)
       store_missing_column = Error e st') /\
  columns_complete example_world /\
  (forall st : @Store (list event),
     @SerializableScene_serialize (list event) unit record_step
       (SerializableScene_new (mk_scene example_world) example_registry) st <> Panic ColumnUnwrap).
Proof.
  assert (Hw : scene_entries world_missing_column = [] ++ missing_column_entry :: [])
    by (vm_compute; reflexivity).
  assert (Hok : slot_ok example_registry [(Position, 8)] chunk_no_velocity 0).
  { intros t m [H|[]]. injection H as <- <-.
    exists [20], (ComponentRegistration_of Position nth_value).
    split; [reflexivity|]. split; [vm_compute; reflexivity|reflexivity]. }
  destruct (missing_column_fatal (mk_scene world_missing_column) example_registry)
    as [H1 _].
  destruct (missing_column_fatal (mk_scene example_world) example_registry)
    as [_ [_ H3]].
  destruct example_invariants as (Hcc & _ & _).
  split; [exact Hw|]. split; [constructor|]. split; [reflexivity|]. split; [exact Hok|].
  split; [reflexivity|].
  split; [exact (proj1 (H1 [] missing_column_entry [] [(Position, 8)] Velocity 8 [] Hw
                   (List.Forall_nil _) eq_refl Hok eq_refl (list event) unit record_step
                   store_missing_column))|].
  split; [exact (proj2 (H1 [] missing_column_entry [] [(Position, 8)] Velocity 8 [] Hw
                   (List.Forall_nil _) eq_refl Hok eq_refl (list event) string failing_step
                   store_missing_column))|].
  split; [exact Hcc|]. intros st. exact (H3 Hcc (list event) unit record_step st).
Defined.
